(** * sync.py: configuration store and incremental file scan

    A shallow embedding of [AppConfiguration] (the hierarchical key-path
    store) and [FileSyncManager] (the modification-time scan that drives
    the upload) of [sync.py], with the properties of its specification
    stated and settled against the embedded code. *)

From Stdlib Require Import Ascii String QArith Qcanon.
From stdpp Require Import gmap strings list fin_maps.

#[local] Set Warnings "-register-all".

(** ** Python values *)

(** What [json.load] produces and what the program stores back: [None],
    booleans, numbers, strings, lists and dicts with string keys.  A number
    is the rational it denotes: the program only compares numbers (Python
    compares an [int] with a [float] exactly), and every finite float is a
    rational.  NaN and the infinities, which strict JSON does not have, are
    left out.  A dict is used as a map, so it is a [gmap]; the order of its
    keys only shows in the layout of the written file. *)
Inductive value : Type :=
  | VNone
  | VBool (b : bool)
  | VNum (q : Qc)
  | VStr (s : string)
  | VList (l : list value)
  | VDict (d : gmap string value).

Definition num (z : Z) : Qc := Q2Qc (inject_Z z).

Definition is_dict (v : value) : bool :=
  match v with VDict _ => true | _ => false end.

(** ** Exceptions *)

Inductive exn : Type := TypeError.

Inductive result (A : Type) : Type :=
  | Ok (a : A)
  | Raise (e : exn).
Arguments Ok {A} a.
Arguments Raise {A} e.

#[global] Instance result_bind : MBind result := λ A B f m,
  match m with Ok a => f a | Raise e => Raise e end.

(** [for x in xs: acc = body(acc, x)], where the body may raise. *)
Fixpoint for_each {A S : Type} (body : S → A → result S) (acc : S) (xs : list A)
  : result S :=
  match xs with
  | [] => Ok acc
  | x :: xs' => acc' ← body acc x; for_each body acc' xs'
  end.

Fixpoint map_each {A B : Type} (f : A → result B) (xs : list A) : result (list B) :=
  match xs with
  | [] => Ok []
  | x :: xs' => y ← f x; ys ← map_each f xs'; Ok (y :: ys)
  end.

(** ** Strings and paths *)

Definition slash : ascii := "/"%char.
Definition colon : ascii := ":"%char.

(** [s.split(sep)] for a one-character separator: never the empty list. *)
Fixpoint split (sep : ascii) (s : string) : list string :=
  match s with
  | EmptyString => [EmptyString]
  | String c s' =>
      if decide (c = sep) then EmptyString :: split sep s'
      else match split sep s' with
           | [] => [String c EmptyString]
           | x :: xs => String c x :: xs
           end
  end.

(** [sep.join(comps)] *)
Fixpoint join_with (sep : string) (comps : list string) : string :=
  match comps with
  | [] => ""
  | [c] => c
  | c :: cs => c +:+ sep +:+ join_with sep cs
  end.

(** [needle in haystack] on strings: the substring test. *)
Fixpoint contains (needle haystack : string) : bool :=
  String.prefix needle haystack
  || match haystack with
     | EmptyString => false
     | String _ rest => contains needle rest
     end.

Fixpoint ends_with_slash (s : string) : bool :=
  match s with
  | EmptyString => false
  | String c EmptyString => bool_decide (c = slash)
  | String _ s' => ends_with_slash s'
  end.

Fixpoint sep_free (s : string) : bool :=
  match s with
  | EmptyString => true
  | String c s' => negb (bool_decide (c = slash)) && sep_free s'
  end.

(** [os.path.join(a, b)] of [posixpath]. *)
Definition join (a b : string) : string :=
  if String.prefix "/" b then b
  else if bool_decide (a = "") || ends_with_slash a then a +:+ b
  else a +:+ "/" +:+ b.

Definition normpath_comp (initial_slashes : nat) (new_comps : list string)
    (comp : string) : list string :=
  if bool_decide (comp = "") || bool_decide (comp = ".") then new_comps
  else if negb (bool_decide (comp = ".."))
          || (bool_decide (initial_slashes = 0) && bool_decide (new_comps = []))
          || bool_decide (last new_comps = Some "..")
  then new_comps ++ [comp]
  else removelast new_comps.

(** [os.path.normpath(path)] of [posixpath]. *)
Definition normpath (path : string) : string :=
  if bool_decide (path = "") then "."
  else
    let initial_slashes :=
      if String.prefix "/" path then
        if String.prefix "//" path && negb (String.prefix "///" path) then 2 else 1
      else 0 in
    let comps := fold_left (normpath_comp initial_slashes) (split slash path) [] in
    let path := join_with "" (replicate initial_slashes "/") +:+ join_with "/" comps in
    if bool_decide (path = "") then "." else path.

(** ** The environment of the program *)

(** The module-level [logger] and the JSON documents on disk.  A log record
    is its level and message.  The log holds the records that the methods of
    [AppConfiguration] emit at the logger's level, INFO, and above; the
    progress lines of the scan, which change no state and no result, are not
    followed. *)
Inductive level : Type := DEBUG | INFO | WARNING | ERROR.

Record world : Type := World {
  disk : gmap string value;
  log : list (level * string);
}.

Definition logger (lvl : level) (msg : string) (w : world) : world :=
  {| disk := disk w; log := log w ++ [(lvl, msg)] |}.

Definition json_dump (file_name : string) (doc : value) (w : world) : world :=
  {| disk := <[file_name := doc]> (disk w); log := log w |}.

(** ** AppConfiguration *)

Module AppConfiguration.

(** The object: [self.configuration_file_name] and [self.config]. *)
Record t : Type := Make {
  configuration_file_name : string;
  config : value;
}.

(** [load_config]: a missing file gives the empty dict. *)
Definition load_config (file_name : string) (w : world) : value * world :=
  match disk w !! file_name with
  | Some doc => (doc, w)
  | None =>
      (VDict ∅,
       logger WARNING ("Configuration file '" +:+ file_name +:+ "' not found.") w)
  end.

Definition init (file_name : string) (w : world) : t * world :=
  let '(doc, w') := load_config file_name w in
  ({| configuration_file_name := file_name; config := doc |}, w').

Definition save_config (self : t) (w : world) : world :=
  logger INFO ("Sync config saved to '" +:+ configuration_file_name self +:+ "'.")
    (json_dump (configuration_file_name self) (config self) w).

(** The loop of [get] over the remaining keys. *)
Fixpoint get_loop (keys : list string) (current_data default : value) : value :=
  match keys with
  | [] => current_data
  | key :: keys' =>
      match current_data with
      | VDict d =>
          match d !! key with
          | Some v => get_loop keys' v default
          | None => default
          end
      | _ => default
      end
  end.

Definition get (key_path : string) (default : value) (self : t) : value :=
  get_loop (split colon key_path) (config self) default.

(** Lines 115-116: [if key not in current_data: current_data[key] = {}]. *)
Definition ensure_dict (key : string) (d : gmap string value)
  : gmap string value :=
  match d !! key with
  | None => <[key := VDict ∅]> d
  | Some _ => d
  end.

(** The loop of [update] over the remaining keys, [current_data] being the
    node the cursor is on.  [current_data] is mutated in place in the
    source; the tree [json.load] builds shares nothing, so the loop returns
    the node as it is afterwards, and whether the assignment of line 109
    was reached ([true]) or the loop ran out of keys ([false]).
    [keys'] is empty exactly when [i == len(keys) - 1]. *)
Fixpoint update_loop (keys : list string) (v : value) (current_data : value)
  : value * bool :=
  match keys with
  | [] => (current_data, false)
  | key :: keys' =>
      match current_data with
      | VDict d =>
          match keys' with
          | [] => (VDict (<[key := v]> d), true)
          | _ :: _ =>
              let d' := ensure_dict key d in
              match d' !! key with
              | Some (VDict child) =>
                  let '(child', assigned) := update_loop keys' v (VDict child) in
                  (VDict (<[key := child']> d'), assigned)
              | _ => update_loop keys' v (VDict d')
              end
          end
      | _ => update_loop keys' v current_data
      end
  end.

(** [update] returns [None] on both paths; the result is the object and
    the environment afterwards. *)
Definition update (key_path : string) (v : value) (self : t) (w : world)
  : t * world :=
  let keys := split colon key_path in
  let '(tree, assigned) := update_loop keys v (config self) in
  let self' := {| configuration_file_name := configuration_file_name self;
                  config := tree |} in
  if assigned then
    (self', save_config self' (logger INFO ("Configuration " +:+ key_path +:+ " saved.") w))
  else
    (self', logger WARNING ("Configuration " +:+ key_path +:+ " not saved.") w).

End AppConfiguration.

(** ** The directory tree that the scan observes *)

(** A snapshot of a directory: its files, each with the modification time
    that [os.path.getmtime] reads for it, and the subdirectories that
    [os.walk] goes into, in the order the listing gives them.  Paths are
    those of [posixpath].  A link to a directory, which the walk lists but
    does not enter, brings no file and is left out. *)
Inductive dir : Type :=
  | Dir (files : list (string * Qc)) (dirs : list (string * dir)).

Definition files_of (d : dir) : list (string * Qc) :=
  match d with Dir files _ => files end.

Definition dirs_of (d : dir) : list (string * dir) :=
  match d with Dir _ dirs => dirs end.

(** [os.walk(top)], top-down: the directory itself, then the walk of each
    subdirectory under [os.path.join(top, name)].  An item [(root, d)]
    stands for the tuple [(root, dirs, files)] of the listing of [d]. *)
Fixpoint os_walk (top : string) (d : dir) : list (string * dir) :=
  match d with
  | Dir _ dirs =>
      (top, d) :: flat_map (λ entry, os_walk (join top entry.1) entry.2) dirs
  end.

(** Entry names as a listing gives them: not empty, no separator. *)
Definition entry_name (name : string) : bool :=
  negb (bool_decide (name = "")) && sep_free name.

Fixpoint wf_dir (d : dir) : bool :=
  match d with
  | Dir files dirs =>
      forallb (λ f, entry_name f.1) files
      && forallb (λ entry, entry_name entry.1 && wf_dir entry.2) dirs
  end.

(** ** FileSyncManager *)

Module FileSyncManager.

(** The object's own fields.  [self.sync_config] is a reference to the
    caller's [AppConfiguration]: the store is shared, so [scan_files]
    takes its current state and returns the state it leaves. *)
Record t : Type := Make {
  directory : string;
  ignore_file_list : gset string;
  ignore_file_path_list : gset string;
  config_key : string;
  prev_timestamp : value;
}.

(** Iterating a value: the characters of a string, the items of a list,
    the keys of a dict; anything else is not iterable. *)
Definition iterate (v : value) : result (list value) :=
  match v with
  | VStr s => Ok ((λ c, VStr (String c "")) <$> list_ascii_of_string s)
  | VList l => Ok l
  | VDict d => Ok (VStr <$> (map_to_list d).*1)
  | _ => Raise TypeError
  end.

(** [set(v)] as far as a [str in] test can tell: the string members.  A
    list or dict member is unhashable; a number, boolean or [None] is
    hashable and equal to no string. *)
Definition hashed (v : value) : result (list string) :=
  match v with
  | VStr s => Ok [s]
  | VList _ | VDict _ => Raise TypeError
  | _ => Ok []
  end.

Definition set_of (v : value) : result (gset string) :=
  items ← iterate v;
  members ← map_each hashed items;
  Ok (list_to_set (concat members)).

(** [os.path.normpath] takes a string only. *)
Definition normpath_of (v : value) : result string :=
  match v with
  | VStr s => Ok (normpath s)
  | _ => Raise TypeError
  end.

Definition init (directory : string) (sync_config : AppConfiguration.t)
  : result t :=
  ignore_file_list ←
    set_of (AppConfiguration.get "sync:ignore_file_list" (VStr "") sync_config);
  ignore_paths ←
    iterate (AppConfiguration.get "sync:ignore_paths" (VList []) sync_config);
  ignore_file_path_list ← map_each normpath_of ignore_paths;
  let config_key := "sync:last-max-timestamp" in
  Ok {| directory := normpath directory;
        ignore_file_list := ignore_file_list;
        ignore_file_path_list := list_to_set ignore_file_path_list;
        config_key := config_key;
        prev_timestamp := AppConfiguration.get config_key VNone sync_config |}.

Definition is_in_ignore_file_path_list (self : t) (root_path : string) : bool :=
  existsb (λ ignore_file_path, contains ignore_file_path root_path)
          (elements (ignore_file_path_list self)).

(** [a > b] on numbers. *)
Definition gt (a b : Qc) : bool := bool_decide (b < a)%Qc.

(** [self.prev_timestamp is None or file_timestamp > self.prev_timestamp]:
    a float compares with a number and with a boolean (an [int]), and with
    nothing else. *)
Definition is_new (self : t) (file_timestamp : Qc) : result bool :=
  match prev_timestamp self with
  | VNone => Ok true
  | VNum p => Ok (gt file_timestamp p)
  | VBool b => Ok (gt file_timestamp (num (if b then 1 else 0)))
  | _ => Raise TypeError
  end.

(** The state of the two loops: [file_list] and [latest_timestamp]. *)
Definition scan_state : Type := list string * option Qc.

(** The body of the inner loop, for one file of [root]. *)
Definition scan_file (self : t) (root : string) (st : scan_state)
    (file : string * Qc) : result scan_state :=
  let '(file_list, latest_timestamp) := st in
  let '(file_name, file_timestamp) := file in
  let src_path := join root file_name in
  if bool_decide (file_name ∈ ignore_file_list self) then Ok st
  else
    is_new self file_timestamp ≫= λ newer : bool,
    if newer then
      Ok (file_list ++ [src_path],
          match latest_timestamp with
          | None => Some file_timestamp
          | Some latest =>
              if gt file_timestamp latest then Some file_timestamp
              else Some latest
          end)
    else Ok st.

(** The body of the outer loop, for one item of the walk. *)
Definition scan_root (self : t) (st : scan_state) (item : string * dir)
  : result scan_state :=
  let '(root, d) := item in
  if is_in_ignore_file_path_list self root then Ok st
  else for_each (scan_file self root) st (files_of d).

(** [scan_files] over the snapshot [fs] of [self.directory]: the list it
    returns and the store as it leaves it.  An exception leaves the store
    as it was: [update] is only reached after the walk. *)
Definition scan_files (fs : dir) (self : t)
    (sync_config : AppConfiguration.t) (w : world)
  : result (list string * (AppConfiguration.t * world)) :=
  '(file_list, latest_timestamp) ←
    for_each (scan_root self) ([], None) (os_walk (directory self) fs);
  match latest_timestamp with
  | Some latest =>
      Ok (file_list,
          AppConfiguration.update (config_key self) (VNum latest) sync_config w)
  | None => Ok (file_list, (sync_config, w))
  end.

End FileSyncManager.

(** ** NeocitiesClient: the remote path of an upload *)

(** [s.replace(old, new)]: the occurrences of [old] from the left, none
    overlapping another; with an empty [old], [new] goes before every
    character and at the end. *)
Fixpoint replace_go (old new : string) (skip : nat) (s : string) : string :=
  match s with
  | EmptyString => EmptyString
  | String c s' =>
      match skip with
      | S k => replace_go old new k s'
      | 0 =>
          if String.prefix old s
          then new +:+ replace_go old new (String.length old - 1) s'
          else String c (replace_go old new 0 s')
      end
  end.

Fixpoint replace_empty (new s : string) : string :=
  match s with
  | EmptyString => new
  | String c s' => new +:+ String c (replace_empty new s')
  end.

Definition replace (old new s : string) : string :=
  if bool_decide (old = "") then replace_empty new s else replace_go old new 0 s.

Module NeocitiesClient.

(** Line 185 of [upload_file]: the name under which the file is sent,
    [os.path.normpath(file_path.replace(cwd, '')).replace('\\', '/')]. *)
Definition remote_path (cwd file_path : string) : string :=
  replace "\" "/" (normpath (replace cwd "" file_path)).

End NeocitiesClient.

(** Names as a listing gives them: no [.] and no [..] either. *)
Definition listed_name (name : string) : bool :=
  entry_name name && negb (bool_decide (name = "."))
  && negb (bool_decide (name = "..")).

Fixpoint listed_dir (d : dir) : bool :=
  match d with
  | Dir files dirs =>
      forallb (λ f, listed_name f.1) files
      && forallb (λ entry, listed_name entry.1 && listed_dir entry.2) dirs
  end.

(** The names, one after the other, each behind a separator. *)
Fixpoint slashed (names : list string) : string :=
  match names with
  | [] => ""
  | name :: names' => "/" +:+ name +:+ slashed names'
  end.

(** ** Notions the properties are stated with *)

(** The intermediate segments of a key-path, followed from the dict [d],
    are nodes or absent: none of them holds a leaf. *)
Fixpoint nodes_or_absent (keys : list string) (d : gmap string value) : bool :=
  match keys with
  | key :: (_ :: _) as keys' =>
      match d !! key with
      | None => true
      | Some (VDict child) => nodes_or_absent keys' child
      | Some _ => false
      end
  | _ => true
  end.

(** What [join] puts before an entry name: the directory path closed by one
    separator, or nothing for the empty path. *)
Definition dirpart (a : string) : string :=
  if bool_decide (a = "") || ends_with_slash a then a else a +:+ "/".

(** What a key-path addresses, if anything. *)
Fixpoint lookup_path (keys : list string) (current_data : value) : option value :=
  match keys with
  | [] => Some current_data
  | key :: keys' =>
      match current_data with
      | VDict d => d !! key ≫= lookup_path keys'
      | _ => None
      end
  end.

(** The path from the root dict [d] to the node the cursor of [update] is
    on when it comes to the last key: a missing segment is created and
    entered, a dict is entered, and on a leaf the cursor stays where it is. *)
Fixpoint descent (keys : list string) (d : gmap string value) : list string :=
  match keys with
  | key :: (_ :: _) as keys' =>
      match d !! key with
      | None => key :: descent keys' ∅
      | Some (VDict child) => key :: descent keys' child
      | Some _ => descent keys' d
      end
  | _ => []
  end.

(** The stored watermark: what [get] reads under the key of the scan. *)
Definition watermark (sync_config : AppConfiguration.t) : value :=
  AppConfiguration.get "sync:last-max-timestamp" VNone sync_config.

(** The walk of the scan comes across the file [name], of modification time
    [t], in the directory of path [root]. *)
Definition walked (self : FileSyncManager.t) (fs : dir)
    (root name : string) (t : Qc) : Prop :=
  ∃ d, (root, d) ∈ os_walk (FileSyncManager.directory self) fs
       ∧ (name, t) ∈ files_of d.

(** The ignore rules: the path of the directory holds a fragment of
    [ignore_paths], or the name of the file is in [ignore_file_list]. *)
Definition ignored (self : FileSyncManager.t) (root name : string) : bool :=
  FileSyncManager.is_in_ignore_file_path_list self root
  || bool_decide (name ∈ FileSyncManager.ignore_file_list self).

(** [m] is the greatest of the numbers that satisfy [P]. *)
Definition greatest (P : Qc → Prop) (m : Qc) : Prop :=
  P m ∧ ∀ t, P t → (t ≤ m)%Qc.

(** The number that a watermark is compared as, when it is one. *)
Definition as_number (v : value) : option Qc :=
  match v with
  | VNum p => Some p
  | VBool b => Some (num (if b then 1 else 0))
  | _ => None
  end.

(** The watermark has moved from [old] up to the number [new]: there was
    none, or it was a number below. *)
Definition advanced (old new : value) : Prop :=
  ∃ m, new = VNum m
       ∧ match as_number old with
         | Some p => (p < m)%Qc
         | None => old = VNone
         end.

(** The manager with another watermark in [prev_timestamp]. *)
Definition with_prev (self : FileSyncManager.t) (prev : value) : FileSyncManager.t :=
  {| FileSyncManager.directory := FileSyncManager.directory self;
     FileSyncManager.ignore_file_list := FileSyncManager.ignore_file_list self;
     FileSyncManager.ignore_file_path_list := FileSyncManager.ignore_file_path_list self;
     FileSyncManager.config_key := FileSyncManager.config_key self;
     FileSyncManager.prev_timestamp := prev |}.

(** What [is_new] compares a timestamp with: nothing when there is no
    watermark, the number of a numeric one. *)
Definition cutoff (prev : value) : result (option Qc) :=
  match prev with
  | VNone => Ok None
  | VNum p => Ok (Some p)
  | VBool b => Ok (Some (num (if b then 1 else 0)))
  | _ => Raise TypeError
  end.

Definition passes (c : option Qc) (t : Qc) : bool :=
  match c with
  | None => true
  | Some p => FileSyncManager.gt t p
  end.

(** Lines 270-271: the running maximum. *)
Definition running_max (latest_timestamp : option Qc) (t : Qc) : option Qc :=
  match latest_timestamp with
  | None => Some t
  | Some latest => if FileSyncManager.gt t latest then Some t else Some latest
  end.

(** The files of one item of the walk that come to the timestamp test, as
    source path and modification time, and the test as a loop body. *)
Definition candidates_of (self : FileSyncManager.t) (item : string * dir)
  : list (string * Qc) :=
  if FileSyncManager.is_in_ignore_file_path_list self item.1 then []
  else (λ file, (join item.1 file.1, file.2)) <$>
         filter (λ file, file.1 ∉ FileSyncManager.ignore_file_list self)
                (files_of item.2).

Definition candidates (self : FileSyncManager.t) (fs : dir) : list (string * Qc) :=
  flat_map (candidates_of self) (os_walk (FileSyncManager.directory self) fs).

Definition check (self : FileSyncManager.t) (st : FileSyncManager.scan_state)
    (cand : string * Qc) : result FileSyncManager.scan_state :=
  FileSyncManager.is_new self cand.2 ≫= λ newer : bool,
  if newer then Ok (st.1 ++ [cand.1], running_max st.2 cand.2) else Ok st.

(** ** Further notions *)

(** The tree that holds [v] under the key-path [keys] and nothing else: a
    chain of one-entry dicts. *)
Fixpoint nest (keys : list string) (v : value) : gmap string value :=
  match keys with
  | [] => ∅
  | key :: keys' =>
      match keys' with
      | [] => {[key := v]}
      | _ :: _ => {[key := VDict (nest keys' v)]}
      end
  end.

(** What Python cannot iterate among the values of a configuration:
    [None], a boolean, a number. *)
Definition not_iterable (v : value) : bool :=
  match v with
  | VNone | VBool _ | VNum _ => true
  | _ => false
  end.

(** The tree in memory is the one that [load_config] would read now. *)
Definition consistent (self : AppConfiguration.t) (w : world) : Prop :=
  (AppConfiguration.load_config (AppConfiguration.configuration_file_name self) w).1
  = AppConfiguration.config self.

(** ** A site, for the examples *)

Definition plain_manager (prev : value) : FileSyncManager.t :=
  {| FileSyncManager.directory := "/site";
     FileSyncManager.ignore_file_list := ∅;
     FileSyncManager.ignore_file_path_list := ∅;
     FileSyncManager.config_key := "sync:last-max-timestamp";
     FileSyncManager.prev_timestamp := prev |}.





Definition secrets_tree : gmap string value :=
  {["sync" := VDict ∅;
    "secrets" := VDict {["tech-notes-press" := VStr "p"]}]}.


Definition two_files : dir := Dir [("a.txt", num 1); ("b.txt", num 2)] [].

Definition store (v : value) : AppConfiguration.t :=
  {| AppConfiguration.configuration_file_name := "sync-config.json";
     AppConfiguration.config := v |}.

Definition empty_store : AppConfiguration.t := store (VDict ∅).


Definition site_build : dir :=
  Dir [("out.txt", num 3)] [("deep", Dir [("x.txt", num 4)] [])].

Definition site_builder : dir := Dir [("out.txt", num 5)] [].

Definition site_src : dir := Dir [("m.py", num 2)] [].

Definition site : dir :=
  Dir [("a.txt", num 1); ("b.txt", num 2); ("skip.txt", num 9)]
      [("build", site_build); ("builder", site_builder); ("src", site_src)].

Definition site_config : AppConfiguration.t :=
  {| AppConfiguration.configuration_file_name := "sync-config.json";
     AppConfiguration.config :=
       VDict {["sync" :=
                 VDict {["ignore_paths" := VList [VStr "build"];
                         "ignore_file_list" := VList [VStr "skip.txt"]]}]} |}.

Definition site_manager : FileSyncManager.t :=
  {| FileSyncManager.directory := "/site";
     FileSyncManager.ignore_file_list := {["skip.txt"]};
     FileSyncManager.ignore_file_path_list := {["build"]};
     FileSyncManager.config_key := "sync:last-max-timestamp";
     FileSyncManager.prev_timestamp := VNone |}.

Definition site_list : list string :=
  ["/site/a.txt"; "/site/b.txt"; "/site/src/m.py"].

Definition no_world : world := {| disk := ∅; log := [] |}.

(** * Properties *)

(** ** Strings *)

Lemma split_not_nil sep s : split sep s ≠ [].
Proof.
  destruct s as [|c s]; simpl; [done|].
  case_decide; [done|]. by destruct (split sep s).
Qed.

(** The path functions on a few inputs, as Python answers them. *)
Example split_examples :
  split colon "a:b:c" = ["a"; "b"; "c"] ∧ split colon "" = [""]
  ∧ split colon "a::" = ["a"; ""; ""].
Proof. vm_compute. by repeat split. Qed.

Example join_examples :
  join "/a" "b" = "/a/b" ∧ join "/" "b" = "/b" ∧ join "" "b" = "b"
  ∧ join "a/" "b" = "a/b" ∧ join "a" "/b" = "/b".
Proof. vm_compute. by repeat split. Qed.

Example normpath_examples :
  normpath "build/" = "build" ∧ normpath "/a//b/../c/." = "/a/c"
  ∧ normpath "" = "." ∧ normpath "//x" = "//x" ∧ normpath "///x" = "/x"
  ∧ normpath "../a" = "../a" ∧ normpath "/.." = "/" ∧ normpath "a/.." = "."
  ∧ normpath "/" = "/" ∧ normpath "a/b/../../.." = "..".
Proof. vm_compute. by repeat split. Qed.

Example contains_examples :
  contains "build" "/x/builder" = true ∧ contains "" "" = true
  ∧ contains "b" "" = false ∧ contains "ab" "aab" = true.
Proof. vm_compute. by repeat split. Qed.

Section strings.
Implicit Types (s t x : string) (c : ascii).
#[local] Arguments String.append !_ _ / : simpl nomatch.

Lemma app_empty_r s : s +:+ "" = s.
Proof. induction s; simpl; congruence. Qed.

Lemma app_assoc_s s t x : (s +:+ t) +:+ x = s +:+ (t +:+ x).
Proof. induction s; simpl; congruence. Qed.

Lemma length_app_s s t : String.length (s +:+ t) = String.length s + String.length t.
Proof. induction s; simpl; congruence. Qed.

Lemma app_not_empty s t : t ≠ "" → s +:+ t ≠ "".
Proof. destruct s, t; done. Qed.

Lemma app_inv_tail_s s t x : s +:+ x = t +:+ x → s = t.
Proof.
  revert t. induction s as [|c s IH]; intros [|c' t] H; simpl in *.
  - done.
  - apply (f_equal String.length) in H. simpl in H.
    rewrite length_app_s in H. lia.
  - apply (f_equal String.length) in H. simpl in H.
    rewrite length_app_s in H. lia.
  - injection H as -> H. f_equal. by apply IH.
Qed.

Lemma prefix_app f s x :
  String.prefix f s = true → String.prefix f (s +:+ x) = true.
Proof.
  revert s. induction f as [|c f IH]; intros [|c' s]; simpl; try done.
  { by destruct x. }
  destruct (ascii_dec c c'); [apply IH|done].
Qed.

Lemma contains_app_r f s x :
  contains f s = true → contains f (s +:+ x) = true.
Proof.
  induction s as [|c s IH]; simpl.
  - rewrite orb_false_r. intros Hf.
    destruct f; [by destruct x|done].
  - intros [Hp|Hc]%orb_true_iff; apply orb_true_iff.
    + left. by apply (prefix_app f (String c s) x).
    + right. by apply IH.
Qed.

Lemma contains_app_l f s x :
  contains f s = true → contains f (x +:+ s) = true.
Proof.
  intros Hf. induction x as [|c x IH]; [done|].
  simpl. apply orb_true_iff. by right.
Qed.

Lemma ends_with_slash_app s t :
  t ≠ "" → ends_with_slash (s +:+ t) = ends_with_slash t.
Proof.
  intros Ht. induction s as [|c s IH]; [done|].
  simpl. destruct (s +:+ t) eqn:E; [|done].
  destruct s; simpl in E; [done|discriminate].
Qed.

Lemma sep_free_ends_with_slash s : sep_free s = true → ends_with_slash s = false.
Proof.
  induction s as [|c s IH]; [done|]. simpl.
  intros [Hc Hs]%andb_true_iff. destruct s; [|by apply IH].
  by apply negb_true_iff in Hc.
Qed.

Lemma sep_free_not_absolute s : sep_free s = true → String.prefix "/" s = false.
Proof.
  destruct s as [|c s]; [done|]. cbn [sep_free String.prefix].
  intros [Hc _]%andb_true_iff.
  apply negb_true_iff, bool_decide_eq_false in Hc.
  destruct (ascii_dec "/"%char c) as [<-|]; [by destruct Hc|done].
Qed.

Lemma join_entry a name :
  sep_free name = true → join a name = dirpart a +:+ name.
Proof.
  intros Hname. unfold join, dirpart.
  rewrite (sep_free_not_absolute _ Hname).
  destruct (bool_decide (a = "") || ends_with_slash a); [done|].
  by rewrite app_assoc_s.
Qed.

Lemma dirpart_closed a : dirpart a = "" ∨ ends_with_slash (dirpart a) = true.
Proof.
  unfold dirpart.
  destruct (bool_decide (a = "")) eqn:Ha; simpl.
  - left. by apply bool_decide_eq_true in Ha.
  - destruct (ends_with_slash a) eqn:He; [by right|].
    right. by rewrite ends_with_slash_app.
Qed.

Lemma ends_with_slash_not_sep_free s t :
  ends_with_slash s = true → sep_free (s +:+ t) = false.
Proof.
  induction s as [|c s IH]; [done|]. simpl.
  destruct s as [|c' s].
  - intros ->%bool_decide_eq_true. done.
  - intros Hs. rewrite (IH Hs). apply andb_false_r.
Qed.

(** A path splits in one way into a closed directory part and a name
    without separator. *)
Lemma dirpart_name_inj s t x y :
  s = "" ∨ ends_with_slash s = true → t = "" ∨ ends_with_slash t = true →
  sep_free x = true → sep_free y = true →
  s +:+ x = t +:+ y → s = t ∧ x = y.
Proof.
  revert t. induction s as [|c s IH]; intros t Hs Ht Hx Hy Heq.
  - destruct Ht as [->|Ht]; [done|]. simpl in Heq. subst x.
    by rewrite ends_with_slash_not_sep_free in Hx.
  - destruct t as [|c' t].
    + change ("" +:+ y) with y in Heq. rewrite <- Heq in Hy.
      destruct Hs as [?|Hs]; [done|].
      by rewrite (ends_with_slash_not_sep_free (String c s)) in Hy.
    + simpl in Heq. injection Heq as -> Heq.
      destruct (IH t) as [-> ->]; try done.
      * destruct Hs as [?|Hs]; [done|]. destruct s; [by left|by right].
      * destruct Ht as [?|Ht]; [done|]. destruct t; [by left|by right].
Qed.

Lemma join_entry_inj a b x y :
  sep_free x = true → sep_free y = true →
  join a x = join b y → dirpart a = dirpart b ∧ x = y.
Proof.
  intros Hx Hy. rewrite !join_entry by done.
  apply dirpart_name_inj; auto using dirpart_closed.
Qed.

End strings.

(** ** The key-path store *)

Section store.
Import AppConfiguration.
Implicit Types (keys : list string) (d : gmap string value) (v : value).

(** On a node that is not a dict the loop of [update] changes nothing and
    runs out of keys. *)
Lemma update_loop_not_dict keys v cur :
  is_dict cur = false → update_loop keys v cur = (cur, false).
Proof.
  intros Hcur. induction keys as [|key keys IH]; [done|].
  destruct cur; simpl in *; try done.
Qed.

Lemma update_loop_last key v d :
  update_loop [key] v (VDict d) = (VDict (<[key := v]> d), true).
Proof. done. Qed.

Lemma update_loop_step key key' keys v d :
  update_loop (key :: key' :: keys) v (VDict d) =
    match ensure_dict key d !! key with
    | Some (VDict child) =>
        let '(child', assigned) := update_loop (key' :: keys) v (VDict child) in
        (VDict (<[key := child']> (ensure_dict key d)), assigned)
    | _ => update_loop (key' :: keys) v (VDict (ensure_dict key d))
    end.
Proof. done. Qed.

Lemma ensure_dict_lookup key d :
  ensure_dict key d !! key =
    match d !! key with None => Some (VDict ∅) | Some x => Some x end.
Proof.
  unfold ensure_dict. destruct (d !! key) eqn:E; [done|].
  by rewrite lookup_insert_eq.
Qed.

(** On a dict the cursor only ever moves to a dict, so the last key finds
    one: the assignment is reached and the node is still a dict. *)
Lemma update_loop_dict keys v d :
  keys ≠ [] → ∃ d', update_loop keys v (VDict d) = (VDict d', true).
Proof.
  revert d. induction keys as [|key keys IH]; intros d Hne; [done|].
  destruct keys as [|key' keys]; [rewrite update_loop_last; eauto|].
  rewrite update_loop_step.
  destruct (ensure_dict key d !! key) as [[| | | | |child]|];
    try (apply IH; done).
  destruct (IH child) as [child' ->]; [done|]. eauto.
Qed.

Lemma get_loop_lookup_path keys cur dflt :
  get_loop keys cur dflt = default dflt (lookup_path keys cur).
Proof.
  revert cur. induction keys as [|key keys IH]; intros cur; [done|].
  destruct cur as [| | | | |d]; try done. simpl.
  destruct (d !! key); [apply IH|done].
Qed.

Lemma get_loop_empty keys dflt :
  keys ≠ [] → get_loop keys (VDict ∅) dflt = dflt.
Proof. destruct keys; [done|]. intros _. simpl. by rewrite lookup_empty. Qed.

Lemma nodes_or_absent_empty keys : nodes_or_absent keys ∅ = true.
Proof. by destruct keys as [|? [|? ?]]. Qed.

Lemma descent_step key key' keys d :
  descent (key :: key' :: keys) d =
    match d !! key with
    | None => key :: descent (key' :: keys) ∅
    | Some (VDict child) => key :: descent (key' :: keys) child
    | Some _ => descent (key' :: keys) d
    end.
Proof. done. Qed.

Lemma nodes_or_absent_step key key' keys d :
  nodes_or_absent (key :: key' :: keys) d =
    match d !! key with
    | None => true
    | Some (VDict child) => nodes_or_absent (key' :: keys) child
    | Some _ => false
    end.
Proof. done. Qed.

(** The value is readable, with [get]'s own loop, under the last key at
    the end of the cursor's path. *)
Lemma get_loop_descent keys final v d dflt :
  last keys = Some final →
  get_loop (descent keys d ++ [final]) (update_loop keys v (VDict d)).1 dflt = v.
Proof.
  revert d. induction keys as [|key keys IH]; intros d Hlast; [done|].
  destruct keys as [|key' keys].
  { injection Hlast as <-. rewrite update_loop_last. simpl.
    by rewrite lookup_insert_eq. }
  rewrite last_cons_cons in Hlast.
  rewrite update_loop_step, ensure_dict_lookup, descent_step.
  unfold ensure_dict.
  destruct (d !! key) as [[| | | | |child]|] eqn:Hkey;
    try (by apply IH).
  - specialize (IH child Hlast).
    destruct (update_loop (key' :: keys) v (VDict child)) as [child' a].
    cbn [app get_loop fst]. by rewrite lookup_insert_eq.
  - specialize (IH ∅ Hlast).
    destruct (update_loop (key' :: keys) v (VDict ∅)) as [child' a].
    cbn [app get_loop fst]. by rewrite lookup_insert_eq.
Qed.

(** The cursor's path is taken from the intermediate segments, in order. *)
Lemma descent_sublist keys d : descent keys d `sublist_of` removelast keys.
Proof.
  revert d. induction keys as [|key keys IH]; intros d; [done|].
  destruct keys as [|key' keys]; [done|].
  rewrite descent_step. change (removelast (key :: key' :: keys))
    with (key :: removelast (key' :: keys)).
  destruct (d !! key) as [[| | | | |child]|];
    try (apply sublist_cons, IH); by apply sublist_skip.
Qed.

(** With no leaf in the way the cursor follows every intermediate segment. *)
Lemma descent_nodes_or_absent keys d :
  nodes_or_absent keys d = true → descent keys d = removelast keys.
Proof.
  revert d. induction keys as [|key keys IH]; intros d Hd; [done|].
  destruct keys as [|key' keys]; [done|].
  rewrite descent_step. rewrite nodes_or_absent_step in Hd.
  change (removelast (key :: key' :: keys))
    with (key :: removelast (key' :: keys)).
  destruct (d !! key) as [[| | | | |child]|]; try done.
  - f_equal. by apply IH.
  - f_equal. apply IH, nodes_or_absent_empty.
Qed.

(** Round trip of the loops. *)
Lemma get_loop_update_loop keys v d dflt :
  keys ≠ [] → nodes_or_absent keys d = true →
  get_loop keys (update_loop keys v (VDict d)).1 dflt = v.
Proof.
  intros Hne Hd.
  destruct (last keys) as [final|] eqn:Hlast;
    [|by apply last_None in Hlast].
  pose proof (get_loop_descent keys final v d dflt Hlast) as Hget.
  rewrite (descent_nodes_or_absent _ _ Hd) in Hget.
  apply last_Some in Hlast as [pre ->].
  by rewrite removelast_last in Hget.
Qed.

(** A sibling under the same intermediate segments is left as it was. *)
Lemma get_loop_update_loop_sibling pre c x v d dflt :
  x ≠ c → nodes_or_absent (pre ++ [c]) d = true →
  get_loop (pre ++ [x]) (update_loop (pre ++ [c]) v (VDict d)).1 dflt
  = get_loop (pre ++ [x]) (VDict d) dflt.
Proof.
  intros Hx. revert d. induction pre as [|key pre IH]; intros d Hd.
  { simpl. by rewrite lookup_insert_ne. }
  assert (∃ key' keys, pre ++ [c] = key' :: keys) as (key' & keys & Hc).
  { destruct pre; simpl; eauto. }
  change ((key :: pre) ++ [c]) with (key :: (pre ++ [c])) in *.
  change ((key :: pre) ++ [x]) with (key :: (pre ++ [x])).
  rewrite Hc in *.
  rewrite update_loop_step, ensure_dict_lookup.
  rewrite nodes_or_absent_step in Hd. unfold ensure_dict.
  destruct (d !! key) as [[| | | | |child]|] eqn:Hkey; try done.
  - specialize (IH child Hd).
    destruct (update_loop (key' :: keys) v (VDict child)) as [child' a].
    cbn [get_loop fst] in *. by rewrite lookup_insert_eq, Hkey.
  - specialize (IH ∅ (nodes_or_absent_empty _)).
    destruct (update_loop (key' :: keys) v (VDict ∅)) as [child' a].
    cbn [get_loop fst] in *. rewrite lookup_insert_eq, Hkey, IH.
    apply get_loop_empty. by destruct pre.
Qed.

Lemma update_config key_path v self w :
  config (update key_path v self w).1
  = (update_loop (split colon key_path) v (config self)).1.
Proof.
  unfold update.
  by destruct (update_loop _ v (config self)) as [tree []].
Qed.

End store.

(** ** Claims on the key-path store *)

Section store_claims.
Import AppConfiguration.

(** C10.  With a dict at the root, [update] never comes to its warning: it
    assigns the value under the last segment on the node its cursor has
    reached, which lies along the intermediate segments and stays on the
    ancestor where a segment holds a leaf; the tree is then written to the
    configuration file in full, and two INFO records are logged.  With
    anything else at the root, and only then, the tree is left as it is,
    nothing is written, and the warning is logged. *)
Theorem update_assigns_on_reached_node key_path v self w :
  let keys := split colon key_path in
  let self' := (update key_path v self w).1 in
  let w' := (update key_path v self w).2 in
  match config self with
  | VDict d =>
      (∃ final, last keys = Some final
         ∧ ∀ dflt, get_loop (descent keys d ++ [final]) (config self') dflt = v)
      ∧ descent keys d `sublist_of` removelast keys
      ∧ (∀ key key' keys' leaf,
           keys = key :: key' :: keys' → d !! key = Some leaf →
           is_dict leaf = false → descent keys d = descent (key' :: keys') d)
      ∧ is_dict (config self') = true
      ∧ configuration_file_name self' = configuration_file_name self
      ∧ disk w' = <[configuration_file_name self := config self']> (disk w)
      ∧ log w' = log w ++
          [(INFO, "Configuration " +:+ key_path +:+ " saved.");
           (INFO, "Sync config saved to '" +:+ configuration_file_name self +:+ "'.")]
  | _ =>
      self' = self
      ∧ disk w' = disk w
      ∧ log w' = log w ++ [(WARNING, "Configuration " +:+ key_path +:+ " not saved.")]
  end.
Proof.
  intros keys self' w'. subst self' w'. unfold update. fold keys.
  pose proof (split_not_nil colon key_path) as Hkeys. fold keys in Hkeys.
  destruct self as [name tree]; cbn [config configuration_file_name].
  destruct tree as [| | | | |d];
    try (rewrite update_loop_not_dict by done; simpl; by rewrite ?app_nil_r).
  destruct (update_loop_dict keys v d Hkeys) as [d' Hd'].
  pose proof (get_loop_descent keys) as Hget.
  specialize (λ final dflt, Hget final v d dflt). rewrite Hd' in Hget |- *.
  cbn [fst snd config configuration_file_name] in *.
  repeat split; try done.
  - destruct (last keys) as [final|] eqn:Hlast;
      [|by apply last_None in Hlast].
    exists final; split; [done|]. intros dflt. by apply Hget.
  - apply descent_sublist.
  - intros key key' keys' leaf -> Hleaf Hnd. rewrite descent_step, Hleaf.
    by destruct leaf.
  - unfold save_config, logger, json_dump; simpl. by rewrite <- app_assoc.
Qed.

(** C1.  The store [{"a": 5}] and [update("a:b", 1)]: the segment [a]
    holds a leaf, and the call is not the no-op with a warning that the
    comment of line 121 announces.  The cursor stays on the root, [b] is
    assigned there, the tree is written to the file, and no warning is
    logged. *)
Theorem update_through_leaf_assigns_on_ancestor :
  let self := {| configuration_file_name := "sync-config.json";
                 config := VDict {["a" := VNum (num 5)]} |} in
  let w := {| disk := ∅; log := [] |} in
  update "a:b" (VNum (num 1)) self w =
    ({| configuration_file_name := "sync-config.json";
        config := VDict {["a" := VNum (num 5); "b" := VNum (num 1)]} |},
     {| disk := {["sync-config.json" :=
                   VDict {["a" := VNum (num 5); "b" := VNum (num 1)]}]};
        log := [(INFO, "Configuration a:b saved.");
                (INFO, "Sync config saved to 'sync-config.json'.")] |}).
Proof. vm_compute. reflexivity. Qed.

(** C8, as the code has it.  On a store whose root is a dict and in which
    the segments [a] and [a:b] are dicts or absent, [update("a:b:c", v)]
    followed by [get("a:b:c", default)] returns [v], and
    [get("a:b:x", default)] returns what it returned before the update: the
    default when [a:b] has no entry [x]. *)
Theorem update_get_round_trip name d w v dflt :
  nodes_or_absent ["a"; "b"; "c"] d = true →
  let self := {| configuration_file_name := name; config := VDict d |} in
  let self' := (update "a:b:c" v self w).1 in
  get "a:b:c" dflt self' = v
  ∧ get "a:b:x" dflt self' = get "a:b:x" dflt self
  ∧ (lookup_path ["a"; "b"; "x"] (VDict d) = None →
     get "a:b:x" dflt self' = dflt).
Proof.
  intros Hd self self'. subst self self'. unfold get.
  rewrite update_config.
  change (split colon "a:b:c") with ["a"; "b"; "c"].
  change (split colon "a:b:x") with ["a"; "b"; "x"].
  cbn [config].
  pose proof (get_loop_update_loop_sibling ["a"; "b"] "c" "x" v d dflt)
    as Hsib.
  cbn [app] in Hsib.
  split; [by apply get_loop_update_loop|]. split; [by apply Hsib|].
  intros Hx. rewrite Hsib by done.
  by rewrite get_loop_lookup_path, Hx.
Qed.

Lemma update_get_round_trip_witness :
  get "a:b:c" VNone
      (update "a:b:c" (VNum (num 5)) {| configuration_file_name := "c.json";
                                         config := VDict ∅ |}
              {| disk := ∅; log := [] |}).1 = VNum (num 5)
  ∧ get "a:b:x" (VStr "fallback")
      (update "a:b:c" (VNum (num 5)) {| configuration_file_name := "c.json";
                                         config := VDict ∅ |}
              {| disk := ∅; log := [] |}).1 = VStr "fallback".
Proof.
  pose proof (update_get_round_trip "c.json" ∅ {| disk := ∅; log := [] |}
                (VNum (num 5))) as H.
  split.
  - apply (H VNone). reflexivity.
  - apply (H (VStr "fallback")); reflexivity.
Defined.

(** C8 as it is worded fails on two stores whose intermediate segments are
    dicts or absent: where [a:b] has an entry [x], [get("a:b:x",
    "fallback")] returns that entry; and where the root is not a dict,
    [update] assigns nothing and [get("a:b:c", None)] returns [None]. *)
Lemma update_get_round_trip_counterexample :
  let w := {| disk := ∅; log := [] |} in
  let d : gmap string value :=
    {["a" := VDict {["b" := VDict {["x" := VNum (num 1)]}]}]} in
  let self := {| configuration_file_name := "c.json"; config := VDict d |} in
  let other := {| configuration_file_name := "c.json"; config := VList [] |} in
  (nodes_or_absent ["a"; "b"; "c"] d = true
   ∧ get "a:b:x" (VStr "fallback") (update "a:b:c" (VNum (num 5)) self w).1
     ≠ VStr "fallback")
  ∧ get "a:b:c" VNone (update "a:b:c" (VNum (num 5)) other w).1
    ≠ VNum (num 5).
Proof. vm_compute. by repeat split. Qed.

End store_claims.

(** ** The walk *)

Section walk.
Implicit Types (top root name : string) (d sub : dir).

Lemma dir_ind_nested (P : dir → Prop) :
  (∀ files dirs, Forall (λ entry, P entry.2) dirs → P (Dir files dirs)) →
  ∀ d, P d.
Proof.
  intros Hstep. fix IH 1. intros [files dirs]. apply Hstep.
  induction dirs as [|[name sub] dirs IHdirs]; constructor;
    [apply IH|apply IHdirs].
Qed.

Lemma elem_of_os_walk item top d :
  item ∈ os_walk top d ↔
  item = (top, d)
  ∨ ∃ entry, entry ∈ dirs_of d ∧ item ∈ os_walk (join top entry.1) entry.2.
Proof.
  destruct d as [files dirs]. cbn [os_walk dirs_of].
  rewrite elem_of_cons, list_elem_of_In, in_flat_map.
  split; (intros [?|(entry & ? & ?)]; [by left|right; exists entry]);
    by rewrite ?list_elem_of_In in *.
Qed.

Lemma os_walk_top top d : (top, d) ∈ os_walk top d.
Proof. apply elem_of_os_walk. by left. Qed.

Lemma wf_dir_files d file :
  wf_dir d = true → file ∈ files_of d → entry_name file.1 = true.
Proof.
  destruct d as [files dirs]. cbn [wf_dir files_of].
  intros [Hfiles _]%andb_true_iff Hin.
  rewrite forallb_forall in Hfiles. by apply Hfiles, list_elem_of_In.
Qed.

Lemma wf_dir_dirs d entry :
  wf_dir d = true → entry ∈ dirs_of d →
  entry_name entry.1 = true ∧ wf_dir entry.2 = true.
Proof.
  destruct d as [files dirs]. cbn [wf_dir dirs_of].
  intros [_ Hdirs]%andb_true_iff Hin.
  rewrite forallb_forall in Hdirs.
  by apply andb_true_iff, Hdirs, list_elem_of_In.
Qed.

Lemma entry_name_inv name :
  entry_name name = true → name ≠ "" ∧ sep_free name = true.
Proof.
  unfold entry_name. intros [Hne Hsep]%andb_true_iff. split; [|done].
  by apply negb_true_iff, bool_decide_eq_false in Hne.
Qed.

(** The walk goes on into what it comes across: the items under an item
    of the walk are items of the walk. *)
Lemma os_walk_trans top d root sub item :
  (root, sub) ∈ os_walk top d → item ∈ os_walk root sub → item ∈ os_walk top d.
Proof.
  revert top. induction d as [files dirs IH] using dir_ind_nested.
  intros top [Heq|(entry & Hentry & Hin)]%elem_of_os_walk Hitem.
  - by injection Heq as -> ->.
  - apply elem_of_os_walk. right. exists entry. split; [done|].
    rewrite Forall_forall in IH. by apply (IH entry Hentry).
Qed.

Lemma os_walk_wf top d root sub :
  wf_dir d = true → (root, sub) ∈ os_walk top d → wf_dir sub = true.
Proof.
  revert top. induction d as [files dirs IH] using dir_ind_nested.
  intros top Hwf [Heq|(entry & Hentry & Hin)]%elem_of_os_walk.
  - by injection Heq as -> ->.
  - rewrite Forall_forall in IH.
    apply (IH entry Hentry (join top entry.1)); [|done].
    by apply (wf_dir_dirs _ _ Hwf).
Qed.

(** The path of every item but the first is the top, closed by a
    separator, followed by something that ends in no separator. *)
Lemma os_walk_path top d root sub :
  wf_dir d = true → (root, sub) ∈ os_walk top d →
  (root = top ∧ sub = d)
  ∨ ∃ rest, rest ≠ "" ∧ root = dirpart top +:+ rest
            ∧ ends_with_slash root = false.
Proof.
  revert top. induction d as [files dirs IH] using dir_ind_nested.
  intros top Hwf [Heq|(entry & Hentry & Hin)]%elem_of_os_walk.
  { left. by injection Heq as -> ->. }
  right. rewrite Forall_forall in IH.
  destruct (wf_dir_dirs _ _ Hwf Hentry) as [Hname Hsub].
  apply entry_name_inv in Hname as [Hne Hsep].
  assert (ends_with_slash (join top entry.1) = false) as Hend.
  { rewrite join_entry, ends_with_slash_app by done.
    by apply sep_free_ends_with_slash. }
  assert (join top entry.1 ≠ "") as Hjoin.
  { rewrite join_entry by done. by apply app_not_empty. }
  destruct (IH entry Hentry _ Hsub Hin) as [[-> _]|(rest & Hrest & -> & Hr)].
  - exists entry.1. by rewrite <- join_entry.
  - exists (entry.1 +:+ "/" +:+ rest).
    split_and!; [by apply app_not_empty, app_not_empty| |done].
    unfold dirpart at 1.
    rewrite Hend, orb_false_r, bool_decide_eq_false_2 by done.
    rewrite join_entry by done. by rewrite !app_assoc_s.
Qed.

Lemma dirpart_open a :
  a ≠ "" → ends_with_slash a = false → dirpart a = a +:+ "/".
Proof.
  intros Ha He. unfold dirpart.
  by rewrite He, orb_false_r, bool_decide_eq_false_2.
Qed.

(** Two items of one walk whose paths [join] treats alike have the same
    path. *)
Lemma os_walk_dirpart_inj top d root1 sub1 root2 sub2 :
  wf_dir d = true →
  (root1, sub1) ∈ os_walk top d → (root2, sub2) ∈ os_walk top d →
  dirpart root1 = dirpart root2 → root1 = root2.
Proof.
  intros Hwf H1 H2 Heq.
  assert (∀ rest, rest ≠ "" → ends_with_slash (dirpart top +:+ rest) = false →
                  dirpart top ≠ dirpart (dirpart top +:+ rest)) as Hfar.
  { intros rest Hrest Hend Habs.
    rewrite (dirpart_open (dirpart top +:+ rest)) in Habs;
      [|by apply app_not_empty|done].
    apply (f_equal String.length) in Habs.
    rewrite !length_app_s in Habs. simpl in Habs. lia. }
  destruct (os_walk_path _ _ _ _ Hwf H1) as [[-> _]|(r1 & Hr1 & -> & He1)],
           (os_walk_path _ _ _ _ Hwf H2) as [[-> _]|(r2 & Hr2 & -> & He2)].
  - done.
  - by destruct (Hfar r2).
  - by destruct (Hfar r1).
  - rewrite (dirpart_open (dirpart top +:+ r1)),
      (dirpart_open (dirpart top +:+ r2)) in Heq;
      [|by apply app_not_empty|done|by apply app_not_empty|done].
    by apply app_inv_tail_s in Heq.
Qed.

(** The path of an item is a prefix of the path of every item under it. *)
Lemma os_walk_prefix top d root sub :
  wf_dir d = true → (root, sub) ∈ os_walk top d → ∃ rest, root = top +:+ rest.
Proof.
  intros Hwf Hin.
  destruct (os_walk_path _ _ _ _ Hwf Hin) as [[-> _]|(rest & _ & -> & _)].
  - exists "". by rewrite app_empty_r.
  - unfold dirpart. destruct (_ || _); [by exists rest|].
    exists ("/" +:+ rest). by rewrite app_assoc_s.
Qed.

End walk.


(** ** The scan *)

Section scan.
Import FileSyncManager.
Implicit Types (self : FileSyncManager.t) (fs : dir) (st : scan_state).
Local Open Scope Qc_scope.

Lemma gt_true a b : gt a b = true ↔ b < a.
Proof. unfold gt. apply bool_decide_eq_true. Qed.

Lemma gt_false a b : gt a b = false ↔ a ≤ b.
Proof. unfold gt. rewrite bool_decide_eq_false. symmetry. apply Qcle_ngt. Qed.

Lemma for_each_app {A S : Type} (body : S → A → result S) acc (xs ys : list A) :
  for_each body acc (xs ++ ys)
  = for_each body acc xs ≫= λ acc', for_each body acc' ys.
Proof.
  revert acc. induction xs as [|x xs IH]; intros acc; [done|].
  simpl. destruct (body acc x) as [acc'|e]; [apply IH|done].
Qed.

Lemma is_in_ignore_file_path_list_true self root :
  is_in_ignore_file_path_list self root = true ↔
  ∃ fragment, fragment ∈ ignore_file_path_list self ∧ contains fragment root = true.
Proof.
  unfold is_in_ignore_file_path_list. rewrite existsb_exists.
  split; intros (fragment & Hin & Hc); exists fragment; split; try done.
  - by apply elem_of_elements, list_elem_of_In.
  - by apply list_elem_of_In, elem_of_elements.
Qed.

Lemma is_new_cutoff self t :
  is_new self t = cutoff (prev_timestamp self) ≫= λ c, Ok (passes c t).
Proof. unfold is_new, cutoff. by destruct (prev_timestamp self). Qed.

Lemma scan_file_check self root st name t :
  scan_file self root st (name, t)
  = if bool_decide (name ∈ ignore_file_list self) then Ok st
    else check self st (join root name, t).
Proof. by destruct st. Qed.

(** The two loops of the scan are one loop of timestamp tests over the
    candidates. *)
Lemma scan_root_candidates self st item :
  scan_root self st item = for_each (check self) st (candidates_of self item).
Proof.
  destruct item as [root d]. unfold scan_root, candidates_of. cbn [fst snd].
  destruct (is_in_ignore_file_path_list self root); [done|].
  revert st. induction (files_of d) as [|[name t] files IH]; intros st; [done|].
  cbn [for_each]. rewrite scan_file_check.
  case_bool_decide as Hname.
  - rewrite filter_cons_False by (cbn; auto). apply IH.
  - rewrite filter_cons_True by done. cbn [fmap list_fmap for_each fst snd].
    destruct (check self st (join root name, t)); [apply IH|done].
Qed.

Lemma scan_walk_candidates self st items :
  for_each (scan_root self) st items
  = for_each (check self) st (flat_map (candidates_of self) items).
Proof.
  revert st. induction items as [|item items IH]; intros st; [done|].
  cbn [for_each flat_map]. rewrite for_each_app, scan_root_candidates.
  destruct (for_each (check self) st (candidates_of self item)); [apply IH|done].
Qed.

Lemma elem_of_candidates self fs path t :
  (path, t) ∈ candidates self fs ↔
  ∃ root name, walked self fs root name t ∧ ignored self root name = false
               ∧ path = join root name.
Proof.
  unfold candidates, walked, ignored.
  rewrite list_elem_of_In, in_flat_map. split.
  - intros ([root d] & Hitem%list_elem_of_In & Hcand%list_elem_of_In).
    unfold candidates_of in Hcand. cbn [fst snd] in Hcand.
    destruct (is_in_ignore_file_path_list self root) eqn:Hroot;
      [by apply elem_of_nil in Hcand|].
    apply list_elem_of_fmap in Hcand as ([name t'] & Heq & Hfile).
    apply list_elem_of_filter in Hfile as [Hname Hfile].
    injection Heq as -> ->. exists root, name. split_and!; [by exists d| |done].
    by rewrite Hroot, bool_decide_eq_false_2.
  - intros (root & name & (d & Hitem & Hfile) & Hign & ->).
    apply orb_false_iff in Hign as [Hroot Hname%bool_decide_eq_false].
    exists (root, d). split; [by apply list_elem_of_In|].
    apply list_elem_of_In. unfold candidates_of. cbn [fst snd]. rewrite Hroot.
    apply list_elem_of_fmap. exists (name, t). split; [done|].
    by apply list_elem_of_filter.
Qed.

Lemma foldl_running_max_None latest ts :
  foldl running_max latest ts = None → latest = None ∧ ts = [].
Proof.
  revert latest. induction ts as [|t ts IH]; intros latest; [done|].
  cbn [foldl]. intros [Habs _]%IH. unfold running_max in Habs.
  destruct latest as [l|]; [by destruct (gt t l)|done].
Qed.

Lemma foldl_running_max_Some latest ts m :
  foldl running_max latest ts = Some m →
  (latest = Some m ∨ m ∈ ts)
  ∧ (∀ t, t ∈ ts → t ≤ m)
  ∧ (∀ l, latest = Some l → l ≤ m).
Proof.
  revert latest. induction ts as [|t ts IH]; intros latest.
  { cbn [foldl]. intros ->. split_and!; [by left|by intros ? ?%elem_of_nil|].
    intros l [= ->]. apply Qcle_refl. }
  cbn [foldl]. intros (Hm & Hts & Hl)%IH.
  assert (∃ x, running_max latest t = Some x ∧ t ≤ x
               ∧ (x = t ∨ latest = Some x)
               ∧ ∀ l, latest = Some l → l ≤ x) as (x & Hx & Htx & Hor & Hlx).
  { unfold running_max. destruct latest as [l|].
    - destruct (gt t l) eqn:Hgt.
      + exists t. split_and!; [done|apply Qcle_refl|by left|].
        intros ? [= <-]. by apply Qclt_le_weak, gt_true.
      + exists l. split_and!; [done|by apply gt_false|by right|].
        intros ? [= <-]. apply Qcle_refl.
    - exists t. split_and!; [done|apply Qcle_refl|by left|done]. }
  specialize (Hl x Hx). split_and!.
  - destruct Hm as [Hm|Hm]; [|right; apply elem_of_cons; by right].
    rewrite Hx in Hm. injection Hm as <-.
    destruct Hor as [-> | ->]; [right; apply elem_of_cons; by left|by left].
  - intros t' [->|Ht']%elem_of_cons; [|by apply Hts].
    by apply Qcle_trans with x.
  - intros l Hlatest. apply Qcle_trans with x; [by apply Hlx|done].
Qed.

Lemma check_ok self c st path t :
  cutoff (prev_timestamp self) = Ok c →
  check self st (path, t)
  = Ok (if passes c t then (st.1 ++ [path], running_max st.2 t) else st).
Proof.
  intros Hc. unfold check. rewrite is_new_cutoff, Hc. cbn.
  by destruct (passes c t).
Qed.

Lemma check_raise self e st cand :
  cutoff (prev_timestamp self) = Raise e → check self st cand = Raise e.
Proof. intros Hc. unfold check. by rewrite is_new_cutoff, Hc. Qed.

Lemma check_fold_ok self c st cands :
  cutoff (prev_timestamp self) = Ok c →
  for_each (check self) st cands
  = Ok (st.1 ++ (filter (λ cand, passes c cand.2 = true) cands).*1,
        foldl running_max st.2 (filter (λ cand, passes c cand.2 = true) cands).*2).
Proof.
  intros Hc. revert st. induction cands as [|[path t] cands IH]; intros st.
  { cbn. rewrite app_nil_r. by destruct st. }
  cbn [for_each]. rewrite (check_ok _ c) by done. cbn [mbind result_bind].
  destruct (passes c t) eqn:Hp.
  - rewrite filter_cons_True by done. rewrite IH. cbn [fst snd fmap list_fmap foldl].
    by rewrite <- app_assoc.
  - rewrite filter_cons_False by (cbn; congruence). apply IH.
Qed.

Lemma check_fold_raise self e st cands :
  cutoff (prev_timestamp self) = Raise e →
  for_each (check self) st cands
  = match cands with [] => Ok st | _ :: _ => Raise e end.
Proof.
  intros Hc. destruct cands as [|[path t] cands]; [done|].
  cbn [for_each]. by rewrite (check_raise _ e).
Qed.

(** What the loop of timestamp tests leaves, when it raises nothing: the
    paths of the candidates that are new, every test having gone through,
    and as running maximum the greatest of their timestamps. *)
Lemma check_loop_inv self cands l latest :
  for_each (check self) ([], None) cands = Ok (l, latest) →
  (∀ path, path ∈ l ↔ ∃ t, (path, t) ∈ cands ∧ is_new self t = Ok true)
  ∧ (∀ path t, (path, t) ∈ cands → ∃ b, is_new self t = Ok b)
  ∧ (latest = None → l = [])
  ∧ (∀ m, latest = Some m →
       greatest (λ t, ∃ path, (path, t) ∈ cands ∧ is_new self t = Ok true) m).
Proof.
  destruct (cutoff (prev_timestamp self)) as [c|e] eqn:Hc.
  - rewrite (check_fold_ok _ c) by done. cbn [fst snd app].
    set (sel := filter (λ cand, passes c cand.2 = true) cands).
    intros [= <- <-].
    assert (∀ t, is_new self t = Ok (passes c t)) as Hnew.
    { intros t. by rewrite is_new_cutoff, Hc. }
    assert (∀ path t, (path, t) ∈ sel ↔
              (path, t) ∈ cands ∧ is_new self t = Ok true) as Hsel.
    { intros path t. unfold sel. rewrite list_elem_of_filter, Hnew. cbn.
      split; intros [? ?]; split; congruence. }
    split_and!.
    + intros path. rewrite list_elem_of_fmap. split.
      * intros ([path' t] & -> & Hin). exists t. by apply Hsel.
      * intros (t & Hin). exists (path, t). split; [done|]. by apply Hsel.
    + intros path t _. rewrite Hnew. eauto.
    + intros [_ Hnil%fmap_nil_inv]%foldl_running_max_None. by rewrite Hnil.
    + intros m (Hm & Hle & _)%foldl_running_max_Some. split.
      * destruct Hm as [?|Hm]; [done|].
        apply list_elem_of_fmap in Hm as ([path t] & -> & Hin).
        exists path. by apply Hsel.
      * intros t (path & Hin). apply Hle, list_elem_of_fmap.
        exists (path, t). split; [done|]. by apply Hsel.
  - rewrite (check_fold_raise _ e) by done.
    destruct cands as [|cand cands]; [|done]. intros [= <- <-].
    split_and!; try done.
    + intros path. split; [by intros ?%elem_of_nil|].
      by intros (t & ?%elem_of_nil & _).
    + by intros path t ?%elem_of_nil.
Qed.

Lemma scan_files_candidates fs self cfg w :
  scan_files fs self cfg w
  = for_each (check self) ([], None) (candidates self fs) ≫= λ st,
    match st.2 with
    | Some latest =>
        Ok (st.1, AppConfiguration.update (config_key self) (VNum latest) cfg w)
    | None => Ok (st.1, (cfg, w))
    end.
Proof.
  unfold scan_files, candidates. rewrite scan_walk_candidates.
  by destruct (for_each _ _ _) as [[l [latest|]]|e].
Qed.

Lemma scan_files_inv fs self cfg w l out :
  scan_files fs self cfg w = Ok (l, out) →
  ∃ latest,
    for_each (check self) ([], None) (candidates self fs) = Ok (l, latest)
    ∧ out = match latest with
            | Some m => AppConfiguration.update (config_key self) (VNum m) cfg w
            | None => (cfg, w)
            end.
Proof.
  rewrite scan_files_candidates.
  destruct (for_each _ _ _) as [[l' [latest|]]|e]; cbn; intros [= <- <-]; eauto.
Qed.

(** What a scan returns: the source paths of the files the walk comes
    across that no ignore rule skips and whose timestamp is new. *)
Lemma scan_files_returned fs self cfg w l out :
  scan_files fs self cfg w = Ok (l, out) →
  ∀ path, path ∈ l ↔
    ∃ root name t, walked self fs root name t ∧ ignored self root name = false
                   ∧ is_new self t = Ok true ∧ path = join root name.
Proof.
  intros (latest & Hloop & _)%scan_files_inv path.
  destruct (check_loop_inv _ _ _ _ Hloop) as (Hl & _). rewrite Hl. split.
  - intros (t & (root & name & ? & ? & ->)%elem_of_candidates & ?).
    by exists root, name, t.
  - intros (root & name & t & ? & ? & ? & ->). exists t. split; [|done].
    apply elem_of_candidates. by exists root, name.
Qed.

Lemma walked_entry_name self fs root name t :
  wf_dir fs = true → walked self fs root name t → sep_free name = true.
Proof.
  intros Hwf (d & Hitem & Hfile).
  pose proof (os_walk_wf _ _ _ _ Hwf Hitem) as Hd.
  by apply (wf_dir_files _ _ Hd), entry_name_inv in Hfile as [_ ?].
Qed.

(** Two files of one walk with the same source path have the same name and
    are in directories of the same path. *)
Lemma walked_join_inj self fs root1 name1 t1 root2 name2 t2 :
  wf_dir fs = true →
  walked self fs root1 name1 t1 → walked self fs root2 name2 t2 →
  join root1 name1 = join root2 name2 → root1 = root2 ∧ name1 = name2.
Proof.
  intros Hwf H1 H2 Hjoin.
  pose proof (walked_entry_name _ _ _ _ _ Hwf H1) as Hn1.
  pose proof (walked_entry_name _ _ _ _ _ Hwf H2) as Hn2.
  apply join_entry_inj in Hjoin as [Hdir ->]; [|done..]. split; [|done].
  destruct H1 as (d1 & Hd1 & _), H2 as (d2 & Hd2 & _).
  by apply (os_walk_dirpart_inj _ _ _ _ _ _ Hwf Hd1 Hd2).
Qed.

(** A file that an ignore rule skips is not returned. *)
Lemma ignored_not_returned fs self cfg w l out root name t :
  wf_dir fs = true → scan_files fs self cfg w = Ok (l, out) →
  walked self fs root name t → ignored self root name = true →
  join root name ∉ l.
Proof.
  intros Hwf Hscan Hwalked Hign Hin.
  apply (scan_files_returned _ _ _ _ _ _ Hscan) in Hin
    as (root' & name' & t' & Hwalked' & Hign' & _ & Hjoin).
  apply (walked_join_inj _ _ _ _ _ _ _ _ Hwf Hwalked Hwalked') in Hjoin
    as [<- <-].
  congruence.
Qed.

Lemma greatest_unique (P : Qc → Prop) m m' :
  greatest P m → greatest P m' → m = m'.
Proof. intros [Hm Hle] [Hm' Hle']. apply Qcle_antisym; auto. Qed.

Lemma is_new_false_true self t m :
  is_new self t = Ok false → is_new self m = Ok true → t ≤ m.
Proof.
  rewrite !is_new_cutoff.
  destruct (cutoff (prev_timestamp self)) as [[p|]|e]; cbn; try done.
  intros [= Ht%gt_false] [= Hm%gt_true].
  apply Qclt_le_weak. by apply Qcle_lt_trans with p.
Qed.

Lemma is_new_true_advanced self m :
  is_new self m = Ok true → advanced (prev_timestamp self) (VNum m).
Proof.
  unfold is_new, advanced. intros Hnew. exists m. split; [done|].
  destruct (prev_timestamp self); cbn; try done;
    injection Hnew as Hnew; by apply gt_true.
Qed.

(** What a scan writes: nothing when it returns nothing; otherwise the
    greatest timestamp of the files it returns, under [config_key]. *)
Lemma scan_files_written fs self cfg w l out :
  scan_files fs self cfg w = Ok (l, out) →
  (∀ root name t, walked self fs root name t → ignored self root name = false →
     ∃ b, is_new self t = Ok b)
  ∧ ((l = [] ∧ out = (cfg, w))
     ∨ ∃ m, l ≠ []
            ∧ out = AppConfiguration.update (config_key self) (VNum m) cfg w
            ∧ greatest (λ t, ∃ root name, walked self fs root name t
                               ∧ ignored self root name = false
                               ∧ is_new self t = Ok true) m).
Proof.
  intros Hscan. pose proof (scan_files_returned _ _ _ _ _ _ Hscan) as Hret.
  apply scan_files_inv in Hscan as (latest & Hloop & ->).
  destruct (check_loop_inv _ _ _ _ Hloop) as (_ & Htests & Hnone & Hsome).
  split.
  { intros root name t Hwalked Hign.
    apply (Htests (join root name) t), elem_of_candidates. by exists root, name. }
  destruct latest as [m|]; [right|left; by split; [apply Hnone|]].
  destruct (Hsome m eq_refl) as [(path & Hin & Hnew) Hle].
  pose proof Hin as (root & name & Hwalked & Hign & ->)%elem_of_candidates.
  exists m. split_and!; [|done|split].
  - intros Hnil.
    assert (join root name ∈ l) as Habs by (apply Hret; by exists root, name, m).
    rewrite Hnil in Habs. by apply elem_of_nil in Habs.
  - by exists root, name.
  - intros t (root' & name' & Hwalked' & Hign' & Hnew'). apply Hle.
    exists (join root' name'). split; [|done].
    apply elem_of_candidates. by exists root', name'.
Qed.

Lemma scan_files_total fs self cfg w c :
  cutoff (prev_timestamp self) = Ok c → ∃ l out, scan_files fs self cfg w = Ok (l, out).
Proof.
  intros Hc. rewrite scan_files_candidates, (check_fold_ok _ c) by done.
  cbn [mbind result_bind fst snd]. destruct (foldl _ _ _); eauto.
Qed.

Lemma init_inv directory cfg self :
  init directory cfg = Ok self →
  FileSyncManager.directory self = normpath directory
  ∧ config_key self = "sync:last-max-timestamp"
  ∧ prev_timestamp self = watermark cfg.
Proof.
  unfold init.
  destruct (set_of _) as [names|]; cbn [mbind result_bind]; [|done].
  destruct (iterate _) as [paths|]; cbn [mbind result_bind]; [|done].
  destruct (map_each normpath_of paths) as [fragments|];
    cbn [mbind result_bind]; [|done].
  by intros [= <-].
Qed.

(** The manager of a store that differs in the watermark only. *)
Lemma init_with_prev directory cfg cfg' self :
  init directory cfg = Ok self →
  AppConfiguration.get "sync:ignore_file_list" (VStr "") cfg'
    = AppConfiguration.get "sync:ignore_file_list" (VStr "") cfg →
  AppConfiguration.get "sync:ignore_paths" (VList []) cfg'
    = AppConfiguration.get "sync:ignore_paths" (VList []) cfg →
  init directory cfg' = Ok (with_prev self (watermark cfg')).
Proof.
  unfold init. intros Hinit -> ->.
  destruct (set_of _) as [names|]; cbn [mbind result_bind] in *; [|done].
  destruct (iterate _) as [paths|]; cbn [mbind result_bind] in *; [|done].
  destruct (map_each normpath_of paths) as [fragments|];
    cbn [mbind result_bind] in *; [|done].
  by injection Hinit as <-.
Qed.

(** [update] of the watermark key: the value is stored where [get] reads it,
    or the stored watermark is what it was. *)
Lemma watermark_update_cases v cfg w :
  watermark (AppConfiguration.update "sync:last-max-timestamp" v cfg w).1 = v
  ∨ watermark (AppConfiguration.update "sync:last-max-timestamp" v cfg w).1
    = watermark cfg.
Proof.
  unfold watermark, AppConfiguration.get. rewrite update_config.
  change (split colon "sync:last-max-timestamp")
    with ["sync"; "last-max-timestamp"].
  destruct (AppConfiguration.config cfg) as [| | | | |d];
    try (right; by rewrite update_loop_not_dict).
  rewrite update_loop_step, ensure_dict_lookup. unfold AppConfiguration.ensure_dict.
  destruct (d !! "sync") as [[| | | | |child]|] eqn:Hsync;
    rewrite ?update_loop_last; cbn [AppConfiguration.get_loop fst];
    rewrite ?lookup_insert_eq, ?lookup_insert_ne, ?Hsync by done;
    auto.
Qed.

Lemma watermark_update v cfg w d :
  AppConfiguration.config cfg = VDict d →
  nodes_or_absent ["sync"; "last-max-timestamp"] d = true →
  watermark (AppConfiguration.update "sync:last-max-timestamp" v cfg w).1 = v.
Proof.
  intros Hcfg Hd. unfold watermark, AppConfiguration.get.
  rewrite update_config, Hcfg.
  change (split colon "sync:last-max-timestamp")
    with ["sync"; "last-max-timestamp"].
  by apply get_loop_update_loop.
Qed.

(** The other keys of [sync] that the manager reads are left as they were. *)
Lemma sync_sibling_update key dflt v cfg w d :
  key ≠ "last-max-timestamp" →
  AppConfiguration.config cfg = VDict d →
  nodes_or_absent ["sync"; "last-max-timestamp"] d = true →
  AppConfiguration.get_loop ["sync"; key]
    (AppConfiguration.config
       (AppConfiguration.update "sync:last-max-timestamp" v cfg w).1) dflt
  = AppConfiguration.get_loop ["sync"; key] (AppConfiguration.config cfg) dflt.
Proof.
  intros Hkey Hcfg Hd. rewrite update_config, Hcfg.
  change (split colon "sync:last-max-timestamp")
    with (["sync"] ++ ["last-max-timestamp"]).
  by apply (get_loop_update_loop_sibling ["sync"]).
Qed.

End scan.

(** ** Claims on the ignore rules *)

Section ignore_claims.
Import FileSyncManager.

(** C6.  A file whose name is in the ignore-name set is not among the paths
    a scan returns, whatever its modification time and whatever the
    watermark of the manager, the absent one of a first run included. *)
Theorem ignored_name_never_returned fs self cfg w l out root name t :
  wf_dir fs = true →
  scan_files fs self cfg w = Ok (l, out) →
  walked self fs root name t →
  name ∈ ignore_file_list self →
  join root name ∉ l.
Proof.
  intros Hwf Hscan Hwalked Hname.
  apply (ignored_not_returned _ _ _ _ _ _ _ _ _ Hwf Hscan Hwalked).
  unfold ignored. rewrite bool_decide_eq_true_2 by done. apply orb_true_r.
Qed.

(** C5.  Where the path of a directory contains a fragment of the manager's
    ignore paths as a substring, none of its files is among the paths a scan
    returns: the test is the substring test, so the fragment [build] covers
    [build] and [builder] alike. *)
Theorem ignored_path_files_excluded fs self cfg w l out root name t fragment :
  wf_dir fs = true →
  scan_files fs self cfg w = Ok (l, out) →
  walked self fs root name t →
  fragment ∈ ignore_file_path_list self →
  contains fragment root = true →
  join root name ∉ l.
Proof.
  intros Hwf Hscan Hwalked Hfrag Hsub.
  apply (ignored_not_returned _ _ _ _ _ _ _ _ _ Hwf Hscan Hwalked).
  unfold ignored. apply orb_true_iff. left.
  apply is_in_ignore_file_path_list_true. eauto.
Qed.

(** C9.  Under a directory whose path contains a fragment of the ignore
    paths, every directory of the walk has a path that extends that path,
    so contains the fragment too; the walk does come to it, and none of its
    files is among the paths a scan returns. *)
Theorem ignored_path_covers_subtree fs self cfg w l out root sub fragment :
  wf_dir fs = true →
  scan_files fs self cfg w = Ok (l, out) →
  (root, sub) ∈ os_walk (directory self) fs →
  fragment ∈ ignore_file_path_list self →
  contains fragment root = true →
  ∀ root' sub', (root', sub') ∈ os_walk root sub →
    (∃ rest, root' = root +:+ rest)
    ∧ contains fragment root' = true
    ∧ (root', sub') ∈ os_walk (directory self) fs
    ∧ ∀ name t, (name, t) ∈ files_of sub' → join root' name ∉ l.
Proof.
  intros Hwf Hscan Hroot Hfrag Hsub root' sub' Hunder.
  pose proof (os_walk_wf _ _ _ _ Hwf Hroot) as Hwfsub.
  destruct (os_walk_prefix _ _ _ _ Hwfsub Hunder) as [rest ->].
  pose proof (os_walk_trans _ _ _ _ _ Hroot Hunder) as Hwalk.
  assert (contains fragment (root +:+ rest) = true) as Hsub'
    by by apply contains_app_r.
  split_and!; [by exists rest|done|done|].
  intros name t Hfile.
  apply (ignored_not_returned _ _ _ _ _ _ _ _ t Hwf Hscan); [by exists sub'|].
  unfold ignored. apply orb_true_iff. left.
  apply is_in_ignore_file_path_list_true. eauto.
Qed.

Example site_manager_init :
  init "/site/" site_config = Ok site_manager.
Proof. vm_compute. reflexivity. Qed.

Lemma site_scan :
  scan_files site site_manager site_config no_world
  = Ok (site_list,
        AppConfiguration.update "sync:last-max-timestamp" (VNum (num 2))
          site_config no_world).
Proof. vm_compute. reflexivity. Qed.

Lemma ignored_name_never_returned_witness :
  wf_dir site = true
  ∧ walked site_manager site "/site" "skip.txt" (num 9)
  ∧ "skip.txt" ∈ ignore_file_list site_manager
  ∧ join "/site" "skip.txt" ∉ site_list.
Proof.
  assert (walked site_manager site "/site" "skip.txt" (num 9)) as Hwalked.
  { exists site. split; [apply os_walk_top|]. cbn. by repeat constructor. }
  assert ("skip.txt" ∈ ignore_file_list site_manager) as Hname.
  { unfold site_manager. cbn [ignore_file_list]. by apply elem_of_singleton_2. }
  split_and!; [reflexivity|done|done|].
  exact (ignored_name_never_returned site site_manager site_config no_world
           site_list _ "/site" "skip.txt" (num 9)
           eq_refl site_scan Hwalked Hname).
Defined.

Lemma ignored_path_files_excluded_witness :
  "build" ∈ ignore_file_path_list site_manager
  ∧ (contains "build" "/site/build" = true
     ∧ join "/site/build" "out.txt" ∉ site_list)
  ∧ (contains "build" "/site/builder" = true
     ∧ join "/site/builder" "out.txt" ∉ site_list).
Proof.
  assert ("build" ∈ ignore_file_path_list site_manager) as Hfrag.
  { unfold site_manager. cbn [ignore_file_path_list].
    by apply elem_of_singleton_2. }
  assert (walked site_manager site "/site/build" "out.txt" (num 3)) as Hbuild.
  { exists site_build. split; [|cbn; by repeat constructor].
    apply elem_of_os_walk. right. exists ("build", site_build).
    split; [cbn; by repeat constructor|apply os_walk_top]. }
  assert (walked site_manager site "/site/builder" "out.txt" (num 5)) as Hbuilder.
  { exists site_builder. split; [|cbn; by repeat constructor].
    apply elem_of_os_walk. right. exists ("builder", site_builder).
    split; [cbn; by repeat constructor|apply os_walk_top]. }
  split_and!; [done|reflexivity| |reflexivity|].
  - exact (ignored_path_files_excluded site site_manager site_config no_world
             site_list _ "/site/build" "out.txt" (num 3) "build"
             eq_refl site_scan Hbuild Hfrag eq_refl).
  - exact (ignored_path_files_excluded site site_manager site_config no_world
             site_list _ "/site/builder" "out.txt" (num 5) "build"
             eq_refl site_scan Hbuilder Hfrag eq_refl).
Defined.

Lemma ignored_path_covers_subtree_witness :
  ("/site/build", site_build) ∈ os_walk "/site" site
  ∧ contains "build" "/site/build" = true
  ∧ (∃ rest, "/site/build/deep" = "/site/build" +:+ rest)
  ∧ contains "build" "/site/build/deep" = true
  ∧ join "/site/build/deep" "x.txt" ∉ site_list.
Proof.
  assert ("build" ∈ ignore_file_path_list site_manager) as Hfrag.
  { unfold site_manager. cbn [ignore_file_path_list].
    by apply elem_of_singleton_2. }
  assert (("/site/build", site_build) ∈ os_walk "/site" site) as Hbuild.
  { apply elem_of_os_walk. right. exists ("build", site_build).
    split; [cbn; by repeat constructor|apply os_walk_top]. }
  assert (("/site/build/deep", Dir [("x.txt", num 4)] [])
            ∈ os_walk "/site/build" site_build) as Hdeep.
  { apply elem_of_os_walk. right. exists ("deep", Dir [("x.txt", num 4)] []).
    split; [cbn; by repeat constructor|apply os_walk_top]. }
  destruct (ignored_path_covers_subtree site site_manager site_config no_world
              site_list _ "/site/build" site_build "build"
              eq_refl site_scan Hbuild Hfrag eq_refl _ _ Hdeep)
    as (Hrest & Hsub & _ & Hfiles).
  split_and!; [done|reflexivity|done|done|].
  apply (Hfiles "x.txt" (num 4)). cbn. by repeat constructor.
Defined.

End ignore_claims.

(** ** Claims on the watermark *)

Section watermark_claims.
Import FileSyncManager.
Local Open Scope Qc_scope.

(** C2, as the code has it.  A scan that returns no file writes nothing.  A
    scan that returns a file writes, under its key, the greatest
    modification time of the files of the walk that no ignore rule skips,
    those that the timestamp test leaves out included: they are never newer
    than one it lets through. *)
Theorem written_watermark_is_greatest_unignored fs self cfg w l out :
  scan_files fs self cfg w = Ok (l, out) →
  match l with
  | [] => out = (cfg, w)
  | _ :: _ =>
      ∃ m, greatest (λ t, ∃ root name, walked self fs root name t
                            ∧ ignored self root name = false) m
           ∧ out = AppConfiguration.update (config_key self) (VNum m) cfg w
  end.
Proof.
  intros Hscan.
  destruct (scan_files_written _ _ _ _ _ _ Hscan)
    as (Htests & [[-> ->]|(m & Hne & -> & (root & name & Hw & Hi & Hnew) & Hle)]);
    [done|].
  destruct l as [|path l]; [done|].
  exists m. split; [|done]. split; [by exists root, name|].
  intros t (root' & name' & Hw' & Hi').
  destruct (Htests _ _ _ Hw' Hi') as [[|] Hnew'].
  - apply Hle. by exists root', name'.
  - by apply (is_new_false_true self).
Qed.

Lemma written_watermark_is_greatest_unignored_witness :
  scan_files site site_manager site_config no_world
  = Ok (site_list,
        AppConfiguration.update "sync:last-max-timestamp" (VNum (num 2))
          site_config no_world)
  ∧ ∃ m, greatest (λ t, ∃ root name, walked site_manager site root name t
                          ∧ ignored site_manager root name = false) m
         ∧ AppConfiguration.update "sync:last-max-timestamp" (VNum (num 2))
             site_config no_world
           = AppConfiguration.update "sync:last-max-timestamp" (VNum m)
               site_config no_world.
Proof.
  split; [exact site_scan|].
  exact (written_watermark_is_greatest_unignored site site_manager site_config
           no_world site_list _ site_scan).
Defined.

(** C2 as it is worded fails on the site: [skip.txt], of modification time
    9, is skipped by its name and counts for nothing; what is written is 2,
    which is not the greatest time among all the files of the walk. *)
Lemma written_watermark_counterexample :
  ∃ cfg' w',
    scan_files site site_manager site_config no_world = Ok (site_list, (cfg', w'))
    ∧ watermark cfg' = VNum (num 2)
    ∧ ¬ greatest (λ t, ∃ root name, walked site_manager site root name t) (num 2).
Proof.
  eexists _, _. split_and!; [vm_compute; reflexivity|vm_compute; reflexivity|].
  intros [_ Hle].
  assert (num 9 ≤ num 2) as Habs; [|by vm_compute in Habs].
  apply Hle. exists "/site", "skip.txt", site.
  split; [apply os_walk_top|]. cbn. by repeat constructor.
Qed.

(** C7, as the code has it.  On a store whose root is a dict, whose [sync]
    entry is a dict or absent, and that holds no watermark, the scan of a
    manager made from the store returns: its list holds the source path of
    every file of the walk that no ignore rule skips, and nothing else; and
    the stored watermark is afterwards the greatest modification time among
    those files (it stays absent when there is none). *)
Theorem first_scan_complete fs directory cfg w self d :
  AppConfiguration.config cfg = VDict d →
  nodes_or_absent ["sync"; "last-max-timestamp"] d = true →
  watermark cfg = VNone →
  init directory cfg = Ok self →
  ∃ l cfg' w',
    scan_files fs self cfg w = Ok (l, (cfg', w'))
    ∧ (∀ path, path ∈ l ↔
         ∃ root name t, walked self fs root name t
                        ∧ ignored self root name = false
                        ∧ path = join root name)
    ∧ (∀ m, greatest (λ t, ∃ root name, walked self fs root name t
                             ∧ ignored self root name = false) m →
            watermark cfg' = VNum m)
    ∧ (l = [] → watermark cfg' = VNone).
Proof.
  intros Hcfg Hd Hnone (Hdir & Hkey & Hprev)%init_inv.
  rewrite Hnone in Hprev.
  assert (∀ t, is_new self t = Ok true) as Hnew.
  { intros t. unfold is_new. by rewrite Hprev. }
  destruct (scan_files_total fs self cfg w None) as (l & [cfg' w'] & Hscan).
  { by rewrite Hprev. }
  exists l, cfg', w'. split; [done|].
  pose proof (scan_files_returned _ _ _ _ _ _ Hscan) as Hret.
  pose proof (written_star := scan_files_written _ _ _ _ _ _ Hscan).
  destruct written_star as (_ & Hout).
  split_and!.
  - intros path. rewrite Hret. split.
    + intros (root & name & t & ? & ? & _ & ->). by exists root, name, t.
    + intros (root & name & t & ? & ? & ->). by exists root, name, t.
  - intros m Hm.
    destruct Hout as [[-> _]|(m' & _ & Heq & (root & name & Hw & Hi & _) & Hle)].
    + destruct Hm as [(root & name & Hw & Hi) _].
      assert (join root name ∈ []) as Habs by (apply Hret; by exists root, name, m).
      by apply elem_of_nil in Habs.
    + rewrite Hkey in Heq. apply (f_equal fst) in Heq. cbn [fst] in Heq.
      rewrite Heq, (watermark_update _ _ _ d) by done. f_equal. symmetry.
      apply (greatest_unique _ _ _ Hm). split; [by exists root, name|].
      intros t (root' & name' & Hw' & Hi'). apply Hle. by exists root', name'.
  - intros ->. destruct Hout as [[_ [= -> ->]]|(m' & Hne & _)]; done.
Qed.

Lemma first_scan_complete_witness :
  nodes_or_absent ["sync"; "last-max-timestamp"] ∅ = true
  ∧ watermark (store (VDict ∅)) = VNone
  ∧ ∃ self l cfg' w',
      init "/site" (store (VDict ∅)) = Ok self
      ∧ scan_files two_files self (store (VDict ∅)) no_world = Ok (l, (cfg', w'))
      ∧ "/site/a.txt" ∈ l ∧ "/site/b.txt" ∈ l
      ∧ watermark cfg' = VNum (num 2).
Proof.
  split; [reflexivity|]. split; [reflexivity|].
  set (self := {| directory := "/site"; ignore_file_list := ∅;
                  ignore_file_path_list := ∅;
                  config_key := "sync:last-max-timestamp";
                  prev_timestamp := VNone |}).
  assert (init "/site" (store (VDict ∅)) = Ok self) as Hinit
    by (vm_compute; reflexivity).
  assert (nodes_or_absent ["sync"; "last-max-timestamp"] ∅ = true) as Hd
    by reflexivity.
  assert (watermark (store (VDict ∅)) = VNone) as Hnone by reflexivity.
  destruct (first_scan_complete two_files "/site" (store (VDict ∅)) no_world
              self ∅ eq_refl Hd Hnone Hinit)
    as (l & cfg' & w' & Hscan & Hl & Hmax & _).
  assert (∀ name t, (name, t) ∈ files_of two_files →
                    walked self two_files "/site" name t) as Hwalked.
  { intros name t Hin. exists two_files. split; [apply os_walk_top|done]. }
  exists self, l, cfg', w'. split_and!; [done|done| | |].
  - apply Hl. exists "/site", "a.txt", (num 1).
    split_and!; [|reflexivity|reflexivity].
    apply Hwalked. cbn. by repeat constructor.
  - apply Hl. exists "/site", "b.txt", (num 2).
    split_and!; [|reflexivity|reflexivity].
    apply Hwalked. cbn. by repeat constructor.
  - apply Hmax. split.
    + exists "/site", "b.txt". split; [|reflexivity].
      apply Hwalked. cbn. by repeat constructor.
    + intros t (root & name & (sub & Hitem & Hfile) & _).
      apply elem_of_os_walk in Hitem as [[= _ ->]|(entry & Hentry & _)];
        [|by apply elem_of_nil in Hentry].
      cbn in Hfile.
      apply elem_of_cons in Hfile as [[= _ ->]|Hfile]; [by vm_compute|].
      apply elem_of_cons in Hfile as [[= _ ->]|Hfile]; [by vm_compute|].
      by apply elem_of_nil in Hfile.
Defined.

(** C7 as it is worded fails on stores that hold no watermark and have
    nowhere to keep one, [{"sync": 5}] and [[]]: both files are returned,
    and the store holds no watermark afterwards either. *)
Lemma first_scan_counterexample :
  (watermark (store (VDict {["sync" := VNum (num 5)]})) = VNone
   ∧ ∃ self cfg' w',
       init "/site" (store (VDict {["sync" := VNum (num 5)]})) = Ok self
       ∧ scan_files two_files self (store (VDict {["sync" := VNum (num 5)]}))
           no_world
         = Ok (["/site/a.txt"; "/site/b.txt"], (cfg', w'))
       ∧ watermark cfg' ≠ VNum (num 2))
  ∧ (watermark (store (VList [])) = VNone
     ∧ ∃ self cfg' w',
         init "/site" (store (VList [])) = Ok self
         ∧ scan_files two_files self (store (VList [])) no_world
           = Ok (["/site/a.txt"; "/site/b.txt"], (cfg', w'))
         ∧ watermark cfg' ≠ VNum (num 2)).
Proof.
  split; (split; [reflexivity|]);
    eexists _, _, _; (split_and!; [vm_compute; reflexivity..|]);
    vm_compute; discriminate.
Qed.

(** C3, as the code has it.  A scan by a manager made from the store, as
    every run of the program makes it, leaves the stored watermark as it was
    or moves it up: whatever the directory holds, the watermark after the
    scan is the one before it or a number above it. *)
Theorem fresh_scan_never_lowers_watermark fs directory cfg w self l cfg' w' :
  init directory cfg = Ok self →
  scan_files fs self cfg w = Ok (l, (cfg', w')) →
  watermark cfg' = watermark cfg ∨ advanced (watermark cfg) (watermark cfg').
Proof.
  intros (_ & Hkey & Hprev)%init_inv Hscan.
  destruct (scan_files_written _ _ _ _ _ _ Hscan)
    as (_ & [[_ [= -> ->]]|(m & _ & Heq & (root & name & _ & _ & Hnew) & _)]);
    [by left|].
  rewrite Hkey in Heq. apply (f_equal fst) in Heq. cbn [fst] in Heq. subst cfg'.
  destruct (watermark_update_cases (VNum m) cfg w) as [Hw|Hw]; [|by left].
  right. rewrite Hw, <- Hprev. by apply is_new_true_advanced.
Qed.

Lemma fresh_scan_never_lowers_watermark_witness :
  ∃ self cfg1 w1 self1 cfg2 w2,
    init "/site" empty_store = Ok self
    ∧ scan_files two_files self empty_store no_world
      = Ok (["/site/a.txt"; "/site/b.txt"], (cfg1, w1))
    ∧ init "/site" cfg1 = Ok self1
    ∧ scan_files (Dir [("a.txt", num 1)] []) self1 cfg1 w1 = Ok ([], (cfg2, w2))
    ∧ advanced (watermark empty_store) (watermark cfg1)
    ∧ watermark cfg2 = watermark cfg1.
Proof.
  eexists _, _, _, _, _, _.
  split; [vm_compute; reflexivity|].
  split; [vm_compute; reflexivity|].
  split; [vm_compute; reflexivity|].
  split; [vm_compute; reflexivity|].
  split.
  - destruct (fresh_scan_never_lowers_watermark two_files "/site"
                empty_store no_world _ _ _ _
                ltac:(vm_compute; reflexivity) ltac:(vm_compute; reflexivity))
      as [Hsame|Hup]; [by vm_compute in Hsame|exact Hup].
  - reflexivity.
Defined.

(** C3 as it is worded fails for two scans by one manager: its watermark is
    the one read when it was made, so after a scan that stores 10 and a
    change of the file's time to 5, the second scan takes the file again and
    stores 5. *)
Lemma same_manager_lowers_watermark :
  ∃ self cfg1 w1 cfg2 w2,
    init "/site" empty_store = Ok self
    ∧ scan_files (Dir [("a.txt", num 10)] []) self empty_store no_world
      = Ok (["/site/a.txt"], (cfg1, w1))
    ∧ scan_files (Dir [("a.txt", num 5)] []) self cfg1 w1
      = Ok (["/site/a.txt"], (cfg2, w2))
    ∧ watermark cfg1 = VNum (num 10)
    ∧ watermark cfg2 = VNum (num 5)
    ∧ num 5 < num 10.
Proof.
  eexists _, _, _, _, _.
  split_and!; [vm_compute; reflexivity..|by vm_compute].
Qed.

(** C4, as the code has it.  On a store whose root is a dict and whose
    [sync] entry is a dict or absent, after a scan by a manager made from
    the store, a manager made from the store again, as the next run makes
    it, scans the same directory to the empty list, and leaves the store as
    it found it. *)
Theorem second_fresh_scan_returns_nothing fs directory cfg w self d l cfg' w' :
  AppConfiguration.config cfg = VDict d →
  nodes_or_absent ["sync"; "last-max-timestamp"] d = true →
  init directory cfg = Ok self →
  scan_files fs self cfg w = Ok (l, (cfg', w')) →
  ∃ self', init directory cfg' = Ok self'
           ∧ scan_files fs self' cfg' w' = Ok ([], (cfg', w')).
Proof.
  intros Hcfg Hd Hinit Hscan.
  pose proof Hinit as (_ & Hkey & _)%init_inv.
  destruct (scan_files_written _ _ _ _ _ _ Hscan)
    as (Htests & [[-> [= -> ->]]|(m & _ & Heq & (root & name & _ & _ & Hm) & Hle)]).
  { by exists self. }
  rewrite Hkey in Heq.
  pose proof (f_equal fst Heq) as Hcfg'. cbn [fst] in Hcfg'.
  assert (watermark cfg' = VNum m) as Hwm.
  { rewrite Hcfg'. by apply (watermark_update _ _ _ d). }
  exists (with_prev self (VNum m)). split.
  { rewrite <- Hwm. apply (init_with_prev _ cfg); [done|..];
      unfold AppConfiguration.get; rewrite Hcfg';
      [change (split colon "sync:ignore_file_list")
         with ["sync"; "ignore_file_list"]
      |change (split colon "sync:ignore_paths") with ["sync"; "ignore_paths"]];
      by apply (sync_sibling_update _ _ _ _ _ d). }
  rewrite scan_files_candidates, (check_fold_ok _ (Some m)) by done.
  change (candidates (with_prev self (VNum m)) fs) with (candidates self fs).
  assert (filter (λ cand : string * Qc, passes (Some m) cand.2 = true)
                 (candidates self fs) = []) as ->; [|done].
  destruct (filter _ _) as [|[path t] rest] eqn:Hfilter; [done|exfalso].
  assert ((path, t) ∈ filter (λ cand : string * Qc, passes (Some m) cand.2 = true)
                        (candidates self fs)) as Hin.
  { rewrite Hfilter. by apply elem_of_cons; left. }
  apply list_elem_of_filter in Hin as [Hpass Hin]. cbn in Hpass.
  apply gt_true in Hpass.
  apply elem_of_candidates in Hin as (root' & name' & Hw' & Hi' & _).
  apply (Qclt_not_le _ _ Hpass).
  destruct (Htests _ _ _ Hw' Hi') as [[|] Hnew'].
  - apply Hle. by exists root', name'.
  - by apply (is_new_false_true self).
Qed.

Lemma second_fresh_scan_returns_nothing_witness :
  ∃ self cfg1 w1 self1,
    nodes_or_absent ["sync"; "last-max-timestamp"] ∅ = true
    ∧ init "/site" empty_store = Ok self
    ∧ scan_files two_files self empty_store no_world
      = Ok (["/site/a.txt"; "/site/b.txt"], (cfg1, w1))
    ∧ init "/site" cfg1 = Ok self1
    ∧ scan_files two_files self1 cfg1 w1 = Ok ([], (cfg1, w1)).
Proof.
  eexists _, _, _, _.
  split; [reflexivity|].
  split; [vm_compute; reflexivity|].
  split; [vm_compute; reflexivity|].
  destruct (second_fresh_scan_returns_nothing two_files "/site" empty_store
              no_world _ ∅ _ _ _
              eq_refl ltac:(reflexivity) ltac:(vm_compute; reflexivity)
              ltac:(vm_compute; reflexivity))
    as (self1 & Hinit & Hscan).
  assert (Ok self1 = Ok (with_prev
            {| directory := "/site"; ignore_file_list := ∅;
               ignore_file_path_list := ∅;
               config_key := "sync:last-max-timestamp";
               prev_timestamp := VNone |} (VNum (num 2)))) as [= ->].
  { rewrite <- Hinit. vm_compute. reflexivity. }
  split; [vm_compute; reflexivity|exact Hscan].
Defined.

(** C4 as it is worded fails in two ways.  A second call on the same manager
    compares with the watermark read when the manager was made, and returns
    the same files again.  And on the store [{"sync": 5}] the scan stores no
    watermark that a manager would read, so the scan of a second manager
    returns the files again too. *)
Lemma second_scan_counterexample :
  (∃ self cfg1 w1 cfg2 w2,
     init "/site" empty_store = Ok self
     ∧ scan_files two_files self empty_store no_world
       = Ok (["/site/a.txt"; "/site/b.txt"], (cfg1, w1))
     ∧ scan_files two_files self cfg1 w1
       = Ok (["/site/a.txt"; "/site/b.txt"], (cfg2, w2)))
  ∧ (∃ self cfg1 w1 self1 cfg2 w2,
       init "/site" (store (VDict {["sync" := VNum (num 5)]})) = Ok self
       ∧ scan_files two_files self (store (VDict {["sync" := VNum (num 5)]}))
           no_world
         = Ok (["/site/a.txt"; "/site/b.txt"], (cfg1, w1))
       ∧ init "/site" cfg1 = Ok self1
       ∧ scan_files two_files self1 cfg1 w1
         = Ok (["/site/a.txt"; "/site/b.txt"], (cfg2, w2))).
Proof.
  split.
  - eexists _, _, _, _, _. split_and!; vm_compute; reflexivity.
  - eexists _, _, _, _, _, _. split_and!; vm_compute; reflexivity.
Qed.

End watermark_claims.


(** ** More on the key-path store *)

Section store_more.
Import AppConfiguration.
Implicit Types (keys : list string) (d : gmap string value) (v : value).

Lemma update_file_name key_path v self w :
  configuration_file_name (update key_path v self w).1
  = configuration_file_name self.
Proof.
  unfold update. by destruct (update_loop _ v (config self)) as [tree []].
Qed.

Lemma update_world key_path v self w d :
  config self = VDict d →
  (update key_path v self w).2
  = save_config (update key_path v self w).1
      (logger INFO ("Configuration " +:+ key_path +:+ " saved.") w).
Proof.
  intros Hd. unfold update. rewrite Hd.
  destruct (update_loop_dict (split colon key_path) v d) as [d' ->];
    [apply split_not_nil|done].
Qed.

Lemma update_world_not_dict key_path v self w :
  is_dict (config self) = false →
  update key_path v self w
  = (self, logger WARNING ("Configuration " +:+ key_path +:+ " not saved.") w).
Proof.
  intros Hd. unfold update. rewrite update_loop_not_dict by done.
  by destruct self.
Qed.

(** X1.  A configuration file that does not exist gives the empty store,
    with one warning in the log and nothing written; and on that store
    [get] answers every key-path with the default. *)
Theorem missing_file_gives_defaults file_name w :
  disk w !! file_name = None →
  config (init file_name w).1 = VDict ∅
  ∧ configuration_file_name (init file_name w).1 = file_name
  ∧ disk (init file_name w).2 = disk w
  ∧ log (init file_name w).2
    = log w ++ [(WARNING, "Configuration file '" +:+ file_name +:+ "' not found.")]
  ∧ ∀ key_path dflt, get key_path dflt (init file_name w).1 = dflt.
Proof.
  intros Hmissing. unfold init, load_config. rewrite Hmissing. cbn.
  split_and!; try done.
  intros key_path dflt. unfold get. cbn [config].
  apply get_loop_empty, split_not_nil.
Qed.

Lemma missing_file_gives_defaults_witness :
  disk no_world !! "sync-config.json" = None
  ∧ get "sync:ignore_paths" (VList []) (init "sync-config.json" no_world).1
    = VList [].
Proof.
  split; [reflexivity|].
  by apply (missing_file_gives_defaults "sync-config.json" no_world).
Defined.

Lemma update_get_any_key_path_aux key_path v dflt self w d :
  config self = VDict d →
  nodes_or_absent (split colon key_path) d = true →
  get key_path dflt (update key_path v self w).1 = v.
Proof.
  intros Hd Hnodes. unfold get. rewrite update_config, Hd.
  apply get_loop_update_loop; [apply split_not_nil|done].
Qed.

(** X2.  The round trip for every key-path: on a store whose root is a dict
    and in which no intermediate segment of the key-path holds a leaf,
    [update(key_path, v)] followed by [get(key_path, default)] returns [v]. *)
Theorem update_get_any_key_path key_path v dflt self w d :
  config self = VDict d →
  nodes_or_absent (split colon key_path) d = true →
  get key_path dflt (update key_path v self w).1 = v.
Proof.
  intros Hd Hnodes. unfold get. rewrite update_config, Hd.
  apply get_loop_update_loop; [apply split_not_nil|done].
Qed.

Lemma update_get_any_key_path_witness :
  nodes_or_absent (split colon "secrets:api-secret-key") secrets_tree = true
  ∧ get "secrets:api-secret-key" VNone
      (update "secrets:api-secret-key" (VStr "k") (store (VDict secrets_tree))
         no_world).1
    = VStr "k".
Proof.
  split; [reflexivity|].
  apply (update_get_any_key_path "secrets:api-secret-key" (VStr "k") VNone
           (store (VDict secrets_tree)) no_world secrets_tree);
    reflexivity.
Defined.

(** The three ways of one iteration before the last key. *)
Lemma update_loop_enter key key' keys v d child :
  d !! key = Some (VDict child) →
  update_loop (key :: key' :: keys) v (VDict d)
  = (VDict (<[key := (update_loop (key' :: keys) v (VDict child)).1]> d),
     (update_loop (key' :: keys) v (VDict child)).2).
Proof.
  intros Hkey. rewrite update_loop_step, ensure_dict_lookup, Hkey.
  unfold ensure_dict. rewrite Hkey.
  by destruct (update_loop (key' :: keys) v (VDict child)).
Qed.

Lemma update_loop_create key key' keys v d :
  d !! key = None →
  update_loop (key :: key' :: keys) v (VDict d)
  = (VDict (<[key := (update_loop (key' :: keys) v (VDict ∅)).1]> d),
     (update_loop (key' :: keys) v (VDict ∅)).2).
Proof.
  intros Hkey. rewrite update_loop_step, ensure_dict_lookup, Hkey.
  unfold ensure_dict. rewrite Hkey.
  destruct (update_loop (key' :: keys) v (VDict ∅)).
  by rewrite insert_insert_eq.
Qed.

Lemma update_loop_stay key key' keys v d leaf :
  d !! key = Some leaf → is_dict leaf = false →
  update_loop (key :: key' :: keys) v (VDict d)
  = update_loop (key' :: keys) v (VDict d).
Proof.
  intros Hkey Hleaf. rewrite update_loop_step, ensure_dict_lookup, Hkey.
  unfold ensure_dict. rewrite Hkey. by destruct leaf.
Qed.

Lemma update_loop_dict_fst keys v d :
  keys ≠ [] → ∃ d', (update_loop keys v (VDict d)).1 = VDict d'
                    ∧ (update_loop keys v (VDict d)).2 = true.
Proof.
  intros Hne. destruct (update_loop_dict keys v d Hne) as [d' ->]. eauto.
Qed.

(** The entries of the node the loop starts on: those that no segment names
    are left as they are, and none is removed. *)
Lemma update_loop_entries keys v d d' k :
  (update_loop keys v (VDict d)).1 = VDict d' →
  (k ∉ keys → d' !! k = d !! k) ∧ (is_Some (d !! k) → is_Some (d' !! k)).
Proof.
  revert d d'. induction keys as [|key keys IH]; intros d d'.
  { cbn. by intros [= <-]. }
  destruct keys as [|key' keys].
  { rewrite update_loop_last. cbn. intros [= <-]. split.
    - intros [Hne _]%not_elem_of_cons. by rewrite lookup_insert_ne by congruence.
    - intros Hsome. destruct (decide (key = k)) as [->|];
        [by rewrite lookup_insert_eq|by rewrite lookup_insert_ne]. }
  assert (∀ x, (update_loop (key :: key' :: keys) v (VDict d)).1
               = VDict (<[key := x]> d) →
               (update_loop (key :: key' :: keys) v (VDict d)).1 = VDict d' →
               (k ∉ key :: key' :: keys → d' !! k = d !! k)
               ∧ (is_Some (d !! k) → is_Some (d' !! k))) as Hins.
  { intros x -> [= <-]. split.
    - intros [Hne _]%not_elem_of_cons. by rewrite lookup_insert_ne by congruence.
    - intros Hsome. destruct (decide (key = k)) as [->|];
        [by rewrite lookup_insert_eq|by rewrite lookup_insert_ne]. }
  destruct (d !! key) as [x|] eqn:Hkey.
  - destruct (is_dict x) eqn:Hx.
    + destruct x as [| | | | |child]; try done.
      eapply Hins. by rewrite (update_loop_enter _ _ _ _ _ child).
    + rewrite (update_loop_stay _ _ _ _ _ x) by done. intros Hd'.
      destruct (IH d d' Hd') as [Hsame Hkeep]. split; [|done].
      intros [_ Hk]%not_elem_of_cons. by apply Hsame.
  - eapply Hins. by rewrite update_loop_create.
Qed.

(** With a value that is no dict, an entry that holds a leaf holds one
    afterwards. *)
Lemma update_loop_leaf_kept keys v d d' k x :
  is_dict v = false →
  (update_loop keys v (VDict d)).1 = VDict d' →
  d !! k = Some x → is_dict x = false →
  ∃ x', d' !! k = Some x' ∧ is_dict x' = false.
Proof.
  intros Hv. revert d d'. induction keys as [|key keys IH]; intros d d'.
  { cbn. intros [= <-]. eauto. }
  destruct keys as [|key' keys].
  { rewrite update_loop_last. cbn. intros [= <-] Hk Hx.
    destruct (decide (key = k)) as [->|];
      [rewrite lookup_insert_eq|rewrite lookup_insert_ne by done]; eauto. }
  intros Hd' Hk Hx. destruct (d !! key) as [y|] eqn:Hkey.
  - destruct (is_dict y) eqn:Hy.
    + destruct y as [| | | | |child]; try done.
      rewrite (update_loop_enter _ _ _ _ _ child) in Hd' by done.
      injection Hd' as <-. exists x. split; [|done].
      rewrite lookup_insert_ne; [done|]. intros ->. congruence.
    + rewrite (update_loop_stay _ _ _ _ _ y) in Hd' by done. by eapply IH.
  - rewrite update_loop_create in Hd' by done. injection Hd' as <-.
    exists x. split; [|done].
    rewrite lookup_insert_ne; [done|]. intros ->. congruence.
Qed.

Lemma update_loop_idempotent keys v d :
  is_dict v = false →
  update_loop keys v (update_loop keys v (VDict d)).1
  = update_loop keys v (VDict d).
Proof.
  intros Hv. revert d. induction keys as [|key keys IH]; intros d; [done|].
  destruct keys as [|key' keys].
  { rewrite !update_loop_last. cbn. by rewrite insert_insert_eq. }
  destruct (d !! key) as [x|] eqn:Hkey.
  - destruct (is_dict x) eqn:Hx.
    + destruct x as [| | | | |child]; try done.
      rewrite (update_loop_enter _ _ _ _ _ child) by done. cbn [fst].
      destruct (update_loop_dict_fst (key' :: keys) v child) as (c & Hc & Hb);
        [done|].
      rewrite (update_loop_enter _ _ _ _ _ c)
        by (by rewrite Hc, lookup_insert_eq).
      rewrite <- Hc, IH, insert_insert_eq. done.
    + rewrite (update_loop_stay _ _ _ _ _ x) by done.
      destruct (update_loop_dict_fst (key' :: keys) v d) as (d' & Hd' & Hb);
        [done|].
      destruct (update_loop_leaf_kept _ _ _ _ _ _ Hv Hd' Hkey Hx)
        as (x' & Hkey' & Hx').
      rewrite Hd'. rewrite (update_loop_stay _ _ _ _ _ x') by done.
      rewrite <- Hd'. apply IH.
  - rewrite update_loop_create by done. cbn [fst].
    destruct (update_loop_dict_fst (key' :: keys) v ∅) as (c & Hc & Hb);
      [done|].
    rewrite (update_loop_enter _ _ _ _ _ c)
      by (by rewrite Hc, lookup_insert_eq).
    rewrite <- Hc, IH, insert_insert_eq. done.
Qed.

(** Where no intermediate segment holds a leaf, a second assignment under
    the same key-path takes the place of the first. *)
Lemma update_loop_absorb keys v1 v2 d :
  nodes_or_absent keys d = true →
  update_loop keys v2 (update_loop keys v1 (VDict d)).1
  = update_loop keys v2 (VDict d).
Proof.
  revert d. induction keys as [|key keys IH]; intros d Hd; [done|].
  destruct keys as [|key' keys].
  { rewrite !update_loop_last. cbn. by rewrite insert_insert_eq. }
  rewrite nodes_or_absent_step in Hd.
  destruct (d !! key) as [[| | | | |child]|] eqn:Hkey; try done.
  - rewrite !(update_loop_enter _ _ _ _ _ child) by done. cbn [fst].
    destruct (update_loop_dict_fst (key' :: keys) v1 child) as (c & Hc & Hb);
      [done|].
    rewrite (update_loop_enter _ _ _ _ _ c)
      by (by rewrite Hc, lookup_insert_eq).
    rewrite <- Hc, IH, insert_insert_eq by done. done.
  - rewrite !update_loop_create by done. cbn [fst].
    destruct (update_loop_dict_fst (key' :: keys) v1 ∅) as (c & Hc & Hb);
      [done|].
    rewrite (update_loop_enter _ _ _ _ _ c)
      by (by rewrite Hc, lookup_insert_eq).
    rewrite <- Hc, IH, insert_insert_eq by apply nodes_or_absent_empty. done.
Qed.

Lemma update_loop_empty keys v :
  keys ≠ [] → update_loop keys v (VDict ∅) = (VDict (nest keys v), true).
Proof.
  induction keys as [|key keys IH]; intros Hne; [done|].
  destruct keys as [|key' keys].
  { rewrite update_loop_last. cbn. by rewrite insert_empty. }
  rewrite update_loop_create by apply lookup_empty.
  rewrite IH by done. cbn [fst snd nest]. by rewrite insert_empty.
Qed.

Lemma object_eq (a b : t) :
  configuration_file_name a = configuration_file_name b →
  config a = config b → a = b.
Proof. destruct a, b. cbn. by intros -> ->. Qed.

Lemma update_disk key_path v self w :
  disk (update key_path v self w).2
  = if is_dict (config self)
    then <[configuration_file_name self := config (update key_path v self w).1]>
           (disk w)
    else disk w.
Proof.
  destruct (config self) as [| | | | |d] eqn:Hd;
    try (by rewrite update_world_not_dict by (by rewrite Hd)).
  rewrite (update_world _ _ _ _ d) by done.
  unfold save_config, logger, json_dump. cbn [disk is_dict].
  by rewrite update_file_name.
Qed.

Lemma update_is_dict key_path v self w :
  is_dict (config (update key_path v self w).1) = is_dict (config self).
Proof.
  rewrite update_config.
  destruct (config self) as [| | | | |d];
    try (by rewrite update_loop_not_dict).
  destruct (update_loop_dict (split colon key_path) v d) as [d' ->];
    [apply split_not_nil|done].
Qed.

(** X3.  With a value that is no dict, [update] is idempotent: the same call
    again leaves the object as the first left it, and writes to the file
    what the file holds. *)
Theorem update_idempotent key_path v self w :
  is_dict v = false →
  (update key_path v (update key_path v self w).1 (update key_path v self w).2).1
  = (update key_path v self w).1
  ∧ disk (update key_path v (update key_path v self w).1
            (update key_path v self w).2).2
    = disk (update key_path v self w).2.
Proof.
  intros Hv.
  assert ((update key_path v (update key_path v self w).1
             (update key_path v self w).2).1 = (update key_path v self w).1)
    as Hobj.
  { apply object_eq; [by rewrite !update_file_name|].
    rewrite update_config. rewrite (update_config key_path v self w).
    destruct (config self) as [| | | | |d];
      [..|by rewrite update_loop_idempotent];
      match goal with
      | |- context [update_loop ?keys v ?c] =>
          rewrite (update_loop_not_dict keys v c) by done; cbn [fst];
          by rewrite (update_loop_not_dict keys v c)
      end. }
  split; [done|].
  rewrite (update_disk _ _ (update key_path v self w).1), Hobj, update_is_dict.
  rewrite (update_disk _ _ self), update_file_name.
  destruct (is_dict (config self)); [by rewrite insert_insert_eq|done].
Qed.

Lemma update_idempotent_witness :
  (update "a:b" (VNum (num 1))
     (update "a:b" (VNum (num 1)) (store (VDict {["a" := VNum (num 5)]}))
        no_world).1
     (update "a:b" (VNum (num 1)) (store (VDict {["a" := VNum (num 5)]}))
        no_world).2).1
  = store (VDict {["a" := VNum (num 5); "b" := VNum (num 1)]}).
Proof.
  destruct (update_idempotent "a:b" (VNum (num 1))
              (store (VDict {["a" := VNum (num 5)]})) no_world eq_refl)
    as [-> _].
  vm_compute. reflexivity.
Defined.

(** X4.  Where the root is a dict and no intermediate segment holds a leaf,
    the last write wins: [update] with [v1] and then with [v2] under the
    same key-path leaves the object that [update] with [v2] alone leaves,
    and [get] returns [v2]. *)
Theorem update_last_write_wins key_path v1 v2 dflt self w w' d :
  config self = VDict d →
  nodes_or_absent (split colon key_path) d = true →
  (update key_path v2 (update key_path v1 self w).1 w').1
  = (update key_path v2 self w).1
  ∧ get key_path dflt (update key_path v2 (update key_path v1 self w).1 w').1
    = v2.
Proof.
  intros Hd Hnodes.
  assert ((update key_path v2 (update key_path v1 self w).1 w').1
          = (update key_path v2 self w).1) as ->.
  { apply object_eq; [by rewrite !update_file_name|].
    rewrite !update_config, Hd. by rewrite update_loop_absorb. }
  split; [done|]. by apply (update_get_any_key_path_aux key_path v2 dflt self w d).
Qed.

Lemma update_last_write_wins_witness :
  nodes_or_absent (split colon "sync:last-max-timestamp") secrets_tree = true
  ∧ get "sync:last-max-timestamp" VNone
      (update "sync:last-max-timestamp" (VNum (num 7))
         (update "sync:last-max-timestamp" (VNum (num 3))
            (store (VDict secrets_tree)) no_world).1 no_world).1
    = VNum (num 7).
Proof.
  split; [reflexivity|].
  apply (update_last_write_wins "sync:last-max-timestamp" (VNum (num 3))
           (VNum (num 7)) VNone (store (VDict secrets_tree)) no_world no_world
           secrets_tree); reflexivity.
Defined.

(** X5.  With a dict at the root, [update] touches the entries of the root
    only under the segments of its key-path: every other entry is as it
    was, no entry is removed, and [get] of a key-path whose first segment is
    none of those segments returns what it returned before. *)
Theorem update_leaves_other_entries key_path v self w d :
  config self = VDict d →
  ∃ d', config (update key_path v self w).1 = VDict d'
        ∧ (∀ k, k ∉ split colon key_path → d' !! k = d !! k)
        ∧ (∀ k, is_Some (d !! k) → is_Some (d' !! k))
        ∧ ∀ other dflt k, head (split colon other) = Some k →
            k ∉ split colon key_path →
            get other dflt (update key_path v self w).1 = get other dflt self.
Proof.
  intros Hd. rewrite update_config, Hd.
  destruct (update_loop_dict_fst (split colon key_path) v d) as (d' & Hd' & _);
    [apply split_not_nil|].
  exists d'. split; [done|].
  assert (∀ k, k ∉ split colon key_path → d' !! k = d !! k) as Hsame.
  { intros k. by apply (update_loop_entries (split colon key_path) v d d' k). }
  split_and!; [done| |].
  - intros k. by apply (update_loop_entries (split colon key_path) v d d' k).
  - intros other dflt k Hhead Hk. unfold get. rewrite update_config, Hd, Hd'.
    destruct (split colon other) as [|k' rest]; [done|].
    injection Hhead as ->. cbn [get_loop]. by rewrite Hsame.
Qed.

Lemma update_leaves_other_entries_witness :
  get "secrets:tech-notes-press" VNone
    (update "sync:last-max-timestamp" (VNum (num 7))
       (store (VDict secrets_tree)) no_world).1
  = VStr "p".
Proof.
  destruct (update_leaves_other_entries "sync:last-max-timestamp"
              (VNum (num 7)) (store (VDict secrets_tree)) no_world secrets_tree
              eq_refl) as (d' & _ & _ & _ & Hget).
  rewrite (Hget "secrets:tech-notes-press" VNone "secrets").
  - reflexivity.
  - reflexivity.
  - vm_compute. intros Hin.
    repeat (apply elem_of_cons in Hin as [Hin|Hin]; [discriminate Hin|]).
    by apply elem_of_nil in Hin.
Defined.

(** X6.  On the empty store [update] builds the chain of one-entry dicts
    that the key-path spells, with the value at its end, and nothing else. *)
Theorem update_on_empty_store_builds_chain key_path v file_name w :
  config (update key_path v {| configuration_file_name := file_name;
                               config := VDict ∅ |} w).1
  = VDict (nest (split colon key_path) v).
Proof.
  rewrite update_config. cbn [config].
  by rewrite update_loop_empty by apply split_not_nil.
Qed.

Lemma load_config_logger file_name lvl msg w :
  (load_config file_name (logger lvl msg w)).1 = (load_config file_name w).1.
Proof. unfold load_config, logger. cbn [disk]. by destruct (disk w !! file_name). Qed.

Lemma init_consistent file_name w :
  consistent (init file_name w).1 (init file_name w).2.
Proof.
  unfold consistent, init, load_config.
  destruct (disk w !! file_name) as [doc|] eqn:Hfile; cbn.
  - by rewrite Hfile.
  - by rewrite Hfile.
Qed.

Lemma init_of_consistent self w :
  consistent self w → (init (configuration_file_name self) w).1 = self.
Proof.
  unfold consistent, init. intros Hc.
  destruct (load_config (configuration_file_name self) w) as [doc w'].
  cbn in *. subst doc. by destruct self.
Qed.

Lemma update_consistent key_path v self w :
  consistent self w →
  consistent (update key_path v self w).1 (update key_path v self w).2.
Proof.
  intros Hc. destruct (config self) as [| | | | |d] eqn:Hd;
    try (rewrite update_world_not_dict by (by rewrite Hd);
         unfold consistent; cbn [fst snd]; by rewrite load_config_logger).
  unfold consistent. rewrite (update_world _ _ _ _ d) by done.
  unfold save_config. rewrite load_config_logger.
  unfold load_config, json_dump. cbn [disk]. by rewrite lookup_insert_eq.
Qed.

(** X7.  The file follows the tree: when the tree in memory is the one the
    configuration file gives, as it is after [AppConfiguration] is made, it
    still is after [update], whichever way [update] goes, and an
    [AppConfiguration] made from the file then is the object [update]
    left. *)
Theorem update_keeps_file_in_step key_path v self w :
  consistent self w →
  consistent (update key_path v self w).1 (update key_path v self w).2
  ∧ (init (configuration_file_name self) (update key_path v self w).2).1
    = (update key_path v self w).1.
Proof.
  intros Hc. pose proof (update_consistent key_path v self w Hc) as Hc'.
  split; [done|].
  rewrite <- (update_file_name key_path v self w). by apply init_of_consistent.
Qed.

Lemma update_keeps_file_in_step_witness :
  consistent (init "sync-config.json" no_world).1
             (init "sync-config.json" no_world).2
  ∧ get "sync:last-max-timestamp" VNone
      (init "sync-config.json"
         (update "sync:last-max-timestamp" (VNum (num 7))
            (init "sync-config.json" no_world).1
            (init "sync-config.json" no_world).2).2).1
    = VNum (num 7).
Proof.
  pose proof (init_consistent "sync-config.json" no_world) as Hc.
  split; [done|].
  destruct (update_keeps_file_in_step "sync:last-max-timestamp" (VNum (num 7))
              _ _ Hc) as [_ Hload].
  change (configuration_file_name (init "sync-config.json" no_world).1)
    with "sync-config.json" in Hload.
  rewrite Hload. vm_compute. reflexivity.
Defined.

End store_more.


(** ** More on the manager *)

Section manager_more.
Import FileSyncManager.
Local Open Scope Qc_scope.

Lemma map_each_raise {A B : Type} (f : A → result B) (xs : list A) x :
  x ∈ xs → f x = Raise TypeError → map_each f xs = Raise TypeError.
Proof.
  intros Hin Hx. induction xs as [|y xs IH]; [by apply elem_of_nil in Hin|].
  cbn [map_each]. apply elem_of_cons in Hin as [<-|Hin].
  - by rewrite Hx.
  - destruct (f y) as [b|[]]; [|done]. cbn [mbind result_bind].
    by rewrite IH.
Qed.




Lemma get_under_missing_sync key dflt cfg :
  lookup_path ["sync"] (AppConfiguration.config cfg) = None →
  AppConfiguration.get_loop ["sync"; key] (AppConfiguration.config cfg) dflt = dflt.
Proof.
  destruct (AppConfiguration.config cfg) as [| | | | |d]; try done. cbn.
  by destruct (d !! "sync").
Qed.

(** X8.  A store without a [sync] entry gives the manager its defaults: no
    ignored name, no ignored path, no watermark, and the directory in
    normal form. *)
Theorem init_defaults directory cfg :
  lookup_path ["sync"] (AppConfiguration.config cfg) = None →
  init directory cfg
  = Ok {| directory := normpath directory;
          ignore_file_list := ∅;
          ignore_file_path_list := ∅;
          config_key := "sync:last-max-timestamp";
          prev_timestamp := VNone |}.
Proof.
  intros Hsync. unfold init, AppConfiguration.get.
  change (split colon "sync:ignore_file_list") with ["sync"; "ignore_file_list"].
  change (split colon "sync:ignore_paths") with ["sync"; "ignore_paths"].
  change (split colon "sync:last-max-timestamp")
    with ["sync"; "last-max-timestamp"].
  by rewrite !get_under_missing_sync.
Qed.

Lemma init_defaults_witness :
  lookup_path ["sync"] (AppConfiguration.config (store (VDict secrets_tree)))
  = Some (VDict ∅)
  ∧ lookup_path ["sync"] (AppConfiguration.config (store (VList []))) = None
  ∧ init "/site/" (store (VList []))
    = Ok {| directory := "/site";
            ignore_file_list := ∅;
            ignore_file_path_list := ∅;
            config_key := "sync:last-max-timestamp";
            prev_timestamp := VNone |}.
Proof.
  split; [reflexivity|]. split; [reflexivity|].
  exact (init_defaults "/site/" (store (VList [])) eq_refl).
Defined.

(** X9.  Making a manager raises [TypeError] where the store holds, under
    [sync:ignore_file_list] or [sync:ignore_paths], something that cannot be
    iterated ([null], a boolean, a number), or under [sync:ignore_paths] a
    list with an entry that is no string. *)
Theorem init_raises_type_error directory cfg :
  not_iterable (AppConfiguration.get "sync:ignore_file_list" (VStr "") cfg) = true
  ∨ not_iterable (AppConfiguration.get "sync:ignore_paths" (VList []) cfg) = true
  ∨ (∃ l x, AppConfiguration.get "sync:ignore_paths" (VList []) cfg = VList l
            ∧ x ∈ l ∧ ∀ s, x ≠ VStr s) →
  init directory cfg = Raise TypeError.
Proof.
  unfold init. intros [Hnames|[Hpaths|(l & x & Hpaths & Hin & Hx)]].
  - unfold set_of.
    by destruct (AppConfiguration.get "sync:ignore_file_list" (VStr "") cfg).
  - destruct (set_of _) as [names|[]]; [|done]. cbn [mbind result_bind].
    by destruct (AppConfiguration.get "sync:ignore_paths" (VList []) cfg).
  - destruct (set_of _) as [names|[]]; [|done]. cbn [mbind result_bind].
    rewrite Hpaths. cbn [iterate mbind result_bind].
    rewrite (map_each_raise normpath_of l x); [done|done|].
    destruct x as [| | |s| |]; try done. by destruct (Hx s).
Qed.

Lemma init_raises_type_error_witness :
  not_iterable
    (AppConfiguration.get "sync:ignore_file_list" (VStr "")
       (store (VDict {["sync" := VDict {["ignore_file_list" := VNone]}]})))
  = true
  ∧ init "/site"
      (store (VDict {["sync" := VDict {["ignore_file_list" := VNone]}]}))
    = Raise TypeError.
Proof.
  split; [reflexivity|].
  apply init_raises_type_error. left. reflexivity.
Defined.





End manager_more.


(** ** More on the scan *)

Section scan_more.
Import FileSyncManager.
Local Open Scope Qc_scope.


Lemma cutoff_some v p : cutoff v = Ok (Some p) ↔ as_number v = Some p.
Proof. destruct v; cbn; split; (try done); by intros [= ->]. Qed.



Lemma filter_everything {A : Type} (P : A → Prop) `{∀ x, Decision (P x)} (l : list A) :
  (∀ x, x ∈ l → P x) → filter P l = l.
Proof.
  induction l as [|x l IH]; intros Hall; [done|].
  rewrite filter_cons_True by (apply Hall, elem_of_cons; by left).
  f_equal. apply IH. intros y Hy. apply Hall, elem_of_cons. by right.
Qed.





(** X14.  Every path that a scan returns extends the directory of the
    manager. *)
Theorem returned_paths_extend_directory fs self cfg w l out :
  wf_dir fs = true →
  scan_files fs self cfg w = Ok (l, out) →
  ∀ path, path ∈ l → ∃ rest, path = directory self +:+ rest.
Proof.
  intros Hwf Hscan path Hin.
  apply (scan_files_returned _ _ _ _ _ _ Hscan) in Hin
    as (root & name & t & Hwalked & _ & _ & ->).
  pose proof (walked_entry_name _ _ _ _ _ Hwf Hwalked) as Hname.
  destruct Hwalked as (d & Hitem & _).
  destruct (os_walk_prefix _ _ _ _ Hwf Hitem) as [rest ->].
  rewrite join_entry by done. unfold dirpart.
  destruct (_ || _); eexists; by rewrite !app_assoc_s.
Qed.

Lemma returned_paths_extend_directory_witness :
  wf_dir site = true
  ∧ ∃ rest, "/site/src/m.py" = directory site_manager +:+ rest.
Proof.
  split; [reflexivity|].
  apply (returned_paths_extend_directory site site_manager site_config no_world
           site_list _ eq_refl site_scan).
  unfold site_list. by repeat constructor.
Defined.

(** X15.  The timestamp test is strict: with a numeric watermark, every
    path that a scan returns is that of a file of the walk, skipped by no
    ignore rule, whose modification time is above the watermark. *)
Theorem returned_files_strictly_newer fs self cfg w l out p :
  scan_files fs self cfg w = Ok (l, out) →
  as_number (prev_timestamp self) = Some p →
  ∀ path, path ∈ l →
    ∃ root name t, walked self fs root name t ∧ ignored self root name = false
                   ∧ path = join root name ∧ p < t.
Proof.
  intros Hscan Hp path Hin.
  apply (scan_files_returned _ _ _ _ _ _ Hscan) in Hin
    as (root & name & t & Hwalked & Hign & Hnew & ->).
  exists root, name, t. split_and!; try done.
  rewrite is_new_cutoff in Hnew. apply cutoff_some in Hp.
  rewrite Hp in Hnew. cbn in Hnew. injection Hnew as Hnew. by apply gt_true.
Qed.

Lemma returned_files_strictly_newer_witness :
  scan_files two_files (plain_manager (VNum (num 1))) empty_store no_world
  = Ok (["/site/b.txt"],
        AppConfiguration.update "sync:last-max-timestamp" (VNum (num 2))
          empty_store no_world)
  ∧ ∃ root name t,
      walked (plain_manager (VNum (num 1))) two_files root name t
      ∧ ignored (plain_manager (VNum (num 1))) root name = false
      ∧ "/site/b.txt" = join root name ∧ num 1 < t.
Proof.
  assert (scan_files two_files (plain_manager (VNum (num 1))) empty_store no_world
          = Ok (["/site/b.txt"],
                AppConfiguration.update "sync:last-max-timestamp" (VNum (num 2))
                  empty_store no_world)) as Hscan
    by (vm_compute; reflexivity).
  split; [done|].
  apply (returned_files_strictly_newer two_files (plain_manager (VNum (num 1)))
           empty_store no_world _ _ (num 1) Hscan eq_refl).
  by repeat constructor.
Defined.

Lemma candidates_of_plain self item :
  ignore_file_list self = ∅ → ignore_file_path_list self = ∅ →
  (candidates_of self item).*1
  = (λ file : string * Qc, join item.1 file.1) <$> files_of item.2.
Proof.
  intros Hnames Hpaths. unfold candidates_of, is_in_ignore_file_path_list.
  rewrite Hpaths, elements_empty. cbn [existsb].
  rewrite filter_everything.
  - rewrite <- list_fmap_compose. done.
  - intros file _. rewrite Hnames. apply not_elem_of_empty.
Qed.

(** X16.  A manager without watermark and without ignore rules returns every
    file of the walk once, in the order of the walk: the files of a
    directory as its listing gives them, before those of its
    subdirectories. *)
Theorem plain_first_scan_returns_walk_order fs self cfg w :
  prev_timestamp self = VNone →
  ignore_file_list self = ∅ →
  ignore_file_path_list self = ∅ →
  ∃ out,
    scan_files fs self cfg w
    = Ok (flat_map (λ item : string * dir,
                      (λ file : string * Qc, join item.1 file.1) <$> files_of item.2)
                   (os_walk (directory self) fs),
          out).
Proof.
  intros Hprev Hnames Hpaths.
  rewrite scan_files_candidates, (check_fold_ok _ None) by (by rewrite Hprev).
  rewrite !filter_everything by done. cbn [fst snd app mbind result_bind].
  assert ((candidates self fs).*1
          = flat_map (λ item : string * dir,
                        (λ file : string * Qc, join item.1 file.1)
                          <$> files_of item.2)
                     (os_walk (directory self) fs)) as ->.
  { unfold candidates.
    induction (os_walk (directory self) fs) as [|item items IH]; [done|].
    cbn [flat_map]. by rewrite fmap_app, IH, candidates_of_plain. }
  destruct (foldl _ _ _); eauto.
Qed.

Lemma plain_first_scan_returns_walk_order_witness :
  ∃ out,
    scan_files site (plain_manager VNone) empty_store no_world
    = Ok (["/site/a.txt"; "/site/b.txt"; "/site/skip.txt";
           "/site/build/out.txt"; "/site/build/deep/x.txt";
           "/site/builder/out.txt"; "/site/src/m.py"], out).
Proof.
  exact (plain_first_scan_returns_walk_order site (plain_manager VNone)
           empty_store no_world eq_refl eq_refl eq_refl).
Defined.

Lemma get_other_after_update key_path v cfg w other dflt k :
  head (split colon other) = Some k → k ∉ split colon key_path →
  AppConfiguration.get other dflt (AppConfiguration.update key_path v cfg w).1
  = AppConfiguration.get other dflt cfg.
Proof.
  intros Hhead Hk. unfold AppConfiguration.get. rewrite update_config.
  destruct (AppConfiguration.config cfg) as [| | | | |d] eqn:Hd;
    try (by rewrite update_loop_not_dict).
  destruct (update_loop_dict_fst (split colon key_path) v d) as (d' & Hd' & _);
    [apply split_not_nil|].
  rewrite Hd'. destruct (split colon other) as [|k' rest]; [done|].
  injection Hhead as ->. cbn [AppConfiguration.get_loop].
  by rewrite (proj1 (update_loop_entries _ _ _ _ k Hd')).
Qed.

(** X17.  A scan changes nothing in the store but the watermark.  Whatever
    the store, a key-path whose first segment is neither [sync] nor
    [last-max-timestamp] reads as before; and on a store whose root is a
    dict and whose [sync] entry is a dict or absent, so do the two ignore
    settings, so that a manager made from the store afterwards has the same
    ignore rules. *)
Theorem scan_changes_only_the_watermark fs self cfg w l cfg' w' :
  config_key self = "sync:last-max-timestamp" →
  scan_files fs self cfg w = Ok (l, (cfg', w')) →
  (∀ other dflt k, head (split colon other) = Some k →
     k ≠ "sync" → k ≠ "last-max-timestamp" →
     AppConfiguration.get other dflt cfg' = AppConfiguration.get other dflt cfg)
  ∧ (∀ d, AppConfiguration.config cfg = VDict d →
          nodes_or_absent ["sync"; "last-max-timestamp"] d = true →
          (∀ dflt, AppConfiguration.get "sync:ignore_file_list" dflt cfg'
                   = AppConfiguration.get "sync:ignore_file_list" dflt cfg)
          ∧ (∀ dflt, AppConfiguration.get "sync:ignore_paths" dflt cfg'
                     = AppConfiguration.get "sync:ignore_paths" dflt cfg)).
Proof.
  intros Hkey (latest & _ & Hout)%scan_files_inv.
  destruct latest as [m|]; [|by injection Hout as -> ->].
  rewrite Hkey in Hout. apply (f_equal fst) in Hout. cbn [fst] in Hout.
  subst cfg'. split.
  - intros other dflt k Hhead Hsync Hlast.
    apply (get_other_after_update _ _ _ _ _ _ k); [done|].
    change (split colon "sync:last-max-timestamp")
      with ["sync"; "last-max-timestamp"].
    intros Hin. repeat (apply elem_of_cons in Hin as [Hin|Hin]; [done|]).
    by apply elem_of_nil in Hin.
  - intros d Hd Hnodes. split; intros dflt; unfold AppConfiguration.get.
    + change (split colon "sync:ignore_file_list")
        with ["sync"; "ignore_file_list"].
      by apply (sync_sibling_update _ _ _ _ _ d).
    + change (split colon "sync:ignore_paths") with ["sync"; "ignore_paths"].
      by apply (sync_sibling_update _ _ _ _ _ d).
Qed.

Lemma scan_changes_only_the_watermark_witness :
  ∃ cfg' w',
    scan_files two_files (plain_manager VNone) (store (VDict secrets_tree))
      no_world
    = Ok (["/site/a.txt"; "/site/b.txt"], (cfg', w'))
    ∧ AppConfiguration.get "secrets:tech-notes-press" VNone cfg' = VStr "p".
Proof.
  eexists _, _. split; [vm_compute; reflexivity|].
  destruct (scan_changes_only_the_watermark two_files (plain_manager VNone)
              (store (VDict secrets_tree)) no_world _ _ _ eq_refl
              ltac:(vm_compute; reflexivity)) as [Hother _].
  rewrite (Hother "secrets:tech-notes-press" VNone "secrets");
    [reflexivity|reflexivity|discriminate|discriminate].
Defined.

Lemma scan_files_consistent fs self cfg w l cfg' w' :
  consistent cfg w → scan_files fs self cfg w = Ok (l, (cfg', w')) →
  consistent cfg' w'.
Proof.
  intros Hc (latest & _ & Hout)%scan_files_inv.
  destruct latest as [m|]; [|by injection Hout as -> ->].
  pose proof (update_consistent (config_key self) (VNum m) cfg w Hc) as Hc'.
  rewrite <- Hout in Hc'. done.
Qed.

Lemma scan_files_file_name fs self cfg w l cfg' w' :
  scan_files fs self cfg w = Ok (l, (cfg', w')) →
  AppConfiguration.configuration_file_name cfg'
  = AppConfiguration.configuration_file_name cfg.
Proof.
  intros (latest & _ & Hout)%scan_files_inv.
  destruct latest as [m|]; [|by injection Hout as -> ->].
  apply (f_equal fst) in Hout. cbn [fst] in Hout. subst cfg'.
  apply update_file_name.
Qed.



(** X18.  The file follows the tree through a scan too: when the tree in
    memory is the one the configuration file gives, it still is after the
    scan. *)
Theorem scan_keeps_file_in_step fs self cfg w l cfg' w' :
  consistent cfg w →
  scan_files fs self cfg w = Ok (l, (cfg', w')) →
  consistent cfg' w'
  ∧ (AppConfiguration.init (AppConfiguration.configuration_file_name cfg) w').1
    = cfg'.
Proof.
  intros Hc Hscan.
  pose proof (scan_files_consistent _ _ _ _ _ _ _ Hc Hscan) as Hc'.
  split; [done|].
  rewrite <- (scan_files_file_name _ _ _ _ _ _ _ Hscan).
  by apply init_of_consistent.
Qed.

Lemma scan_keeps_file_in_step_witness :
  ∃ cfg' w',
    consistent (AppConfiguration.init "sync-config.json" no_world).1
               (AppConfiguration.init "sync-config.json" no_world).2
    ∧ scan_files two_files (plain_manager VNone)
        (AppConfiguration.init "sync-config.json" no_world).1
        (AppConfiguration.init "sync-config.json" no_world).2
      = Ok (["/site/a.txt"; "/site/b.txt"], (cfg', w'))
    ∧ watermark (AppConfiguration.init "sync-config.json" w').1
      = VNum (num 2).
Proof.
  eexists _, _. split; [apply init_consistent|].
  split; [vm_compute; reflexivity|].
  destruct (scan_keeps_file_in_step two_files (plain_manager VNone) _ _ _ _ _
              (init_consistent "sync-config.json" no_world)
              ltac:(vm_compute; reflexivity)) as [_ Hload].
  change (AppConfiguration.configuration_file_name
            (AppConfiguration.init "sync-config.json" no_world).1)
    with "sync-config.json" in Hload.
  rewrite Hload. vm_compute. reflexivity.
Defined.



End scan_more.


(** ** The remote path *)

Section remote_path.
Import NeocitiesClient FileSyncManager.
#[local] Arguments String.append !_ _ / : simpl nomatch.

Example replace_examples :
  replace "ab" "" "xabyabab" = "xy" ∧ replace "" "-" "abc" = "-a-b-c-"
  ∧ replace "aa" "b" "aaa" = "ba" ∧ replace "\" "/" "a\b\c" = "a/b/c"
  ∧ remote_path "/site" "/site/a/site/b.txt" = "/a/b.txt".
Proof. vm_compute. by repeat split. Qed.

Lemma prefix_refl s : String.prefix s s = true.
Proof.
  induction s as [|c s IH]; [done|]. cbn [String.prefix].
  by destruct (ascii_dec c c).
Qed.

Lemma replace_go_skip old new a s :
  replace_go old new (String.length a) (a +:+ s) = replace_go old new 0 s.
Proof. induction a as [|c a IH]; [done|]. simpl. apply IH. Qed.

Lemma contains_cons_false old c s :
  contains old (String c s) = false →
  String.prefix old (String c s) = false ∧ contains old s = false.
Proof. cbn [contains]. by intros [? ?]%orb_false_iff. Qed.

(** Where [old] does not occur, [replace] changes nothing. *)
Lemma replace_absent old new s : contains old s = false → replace old new s = s.
Proof.
  intros Habsent. unfold replace. case_bool_decide as Hold.
  { subst old. by destruct s. }
  induction s as [|c s IH]; [done|].
  apply contains_cons_false in Habsent as [Hprefix Hrest].
  cbn [replace_go]. rewrite Hprefix. f_equal. by apply IH.
Qed.

(** An occurrence at the front is taken off, and the search goes on behind
    it. *)
Lemma replace_front old s :
  old ≠ "" → replace old "" (old +:+ s) = replace old "" s.
Proof.
  intros Hold. unfold replace. rewrite bool_decide_eq_false_2 by done.
  destruct old as [|c old]; [done|].
  change (String c old +:+ s) with (String c (old +:+ s)).
  cbn [replace_go].
  change (String c (old +:+ s)) with (String c old +:+ s).
  rewrite (prefix_app _ (String c old) s) by apply prefix_refl.
  cbn [String.length].
  replace (S (String.length old) - 1) with (String.length old) by lia.
  change ("" +:+ ?x) with x. apply replace_go_skip.
Qed.

Lemma split_sep_free name : sep_free name = true → split slash name = [name].
Proof.
  induction name as [|c name IH]; [done|]. cbn [sep_free split].
  intros [Hc Hname]%andb_true_iff.
  apply negb_true_iff, bool_decide_eq_false in Hc.
  rewrite decide_False by done. by rewrite IH.
Qed.

Lemma split_app_slash name s :
  sep_free name = true → split slash (name +:+ "/" +:+ s) = name :: split slash s.
Proof.
  induction name as [|c name IH].
  { intros _. change ("" +:+ "/" +:+ s) with (String slash s).
    cbn [split]. by rewrite decide_True. }
  cbn [sep_free]. intros [Hc Hname]%andb_true_iff.
  apply negb_true_iff, bool_decide_eq_false in Hc.
  change (String c name +:+ "/" +:+ s) with (String c (name +:+ "/" +:+ s)).
  cbn [split]. rewrite decide_False by done. by rewrite IH.
Qed.

Lemma listed_name_inv name :
  listed_name name = true →
  name ≠ "" ∧ sep_free name = true ∧ name ≠ "." ∧ name ≠ "..".
Proof.
  unfold listed_name. intros [[Hentry Hdot]%andb_true_iff Hdots]%andb_true_iff.
  apply entry_name_inv in Hentry as [Hne Hsep].
  apply negb_true_iff, bool_decide_eq_false in Hdot, Hdots. done.
Qed.

Lemma listed_name_entry_name name : listed_name name = true → entry_name name = true.
Proof.
  unfold listed_name. by intros [[Hentry _]%andb_true_iff _]%andb_true_iff.
Qed.

Lemma split_join_with names :
  Forall (λ name, listed_name name = true) names → names ≠ [] →
  split slash (join_with "/" names) = names.
Proof.
  induction names as [|name names IH]; [done|].
  intros [Hname Hnames]%Forall_cons _.
  apply listed_name_inv in Hname as (_ & Hsep & _).
  destruct names as [|name' names]; [by apply split_sep_free|].
  change (join_with "/" (name :: name' :: names))
    with (name +:+ "/" +:+ join_with "/" (name' :: names)).
  rewrite split_app_slash by done. f_equal. by apply IH.
Qed.

Lemma fold_normpath_comp k names acc :
  Forall (λ name, listed_name name = true) names →
  fold_left (normpath_comp k) names acc = acc ++ names.
Proof.
  revert acc. induction names as [|name names IH]; intros acc Hnames.
  { by rewrite app_nil_r. }
  apply Forall_cons in Hnames as [Hname Hnames].
  apply listed_name_inv in Hname as (Hne & _ & Hdot & Hdots).
  cbn [fold_left]. rewrite IH by done. unfold normpath_comp.
  rewrite !bool_decide_eq_false_2 by done. cbn.
  by rewrite <- app_assoc.
Qed.

Lemma join_with_not_absolute names :
  Forall (λ name, listed_name name = true) names → names ≠ [] →
  String.prefix "/" (join_with "/" names) = false.
Proof.
  destruct names as [|name names]; [done|].
  intros [Hname _]%Forall_cons _.
  apply listed_name_inv in Hname as (Hne & Hsep & _).
  destruct name as [|c name]; [done|].
  assert (∃ rest, join_with "/" (String c name :: names) = String c rest)
    as [rest ->].
  { destruct names; simpl; eauto. }
  apply (sep_free_not_absolute (String c name)) in Hsep.
  cbn [String.prefix] in *. destruct (ascii_dec "/" c); [|done].
  by destruct name.
Qed.

Lemma prefix_slash x : String.prefix "/" (String slash x) = true.
Proof.
  cbn [String.prefix].
  destruct (ascii_dec "/" slash) as [_|Hne]; [by destruct x|by destruct Hne].
Qed.

Lemma prefix_slash_slash x :
  String.prefix "//" (String slash x) = String.prefix "/" x.
Proof.
  change "//" with (String slash "/"). cbn [String.prefix].
  destruct (ascii_dec slash slash) as [_|Hne]; [done|]. by destruct Hne.
Qed.

(** A path of listed names under the root is its own normal form. *)
Lemma normpath_listed names :
  Forall (λ name, listed_name name = true) names → names ≠ [] →
  normpath ("/" +:+ join_with "/" names) = "/" +:+ join_with "/" names.
Proof.
  intros Hnames Hne. unfold normpath.
  change ("/" +:+ join_with "/" names) with (String slash (join_with "/" names)).
  rewrite bool_decide_eq_false_2 by done.
  rewrite prefix_slash, prefix_slash_slash, join_with_not_absolute by done.
  cbn [andb]. cbv zeta.
  assert (split slash (String slash (join_with "/" names)) = "" :: names) as ->.
  { cbn [split]. rewrite decide_True by done. by rewrite split_join_with. }
  change (fold_left (normpath_comp 1) ("" :: names) [])
    with (fold_left (normpath_comp 1) names (normpath_comp 1 [] "")).
  change (normpath_comp 1 [] "") with (@nil string).
  rewrite fold_normpath_comp by done. cbn [app].
  change (join_with "" (replicate 1 "/") +:+ join_with "/" names)
    with (String slash (join_with "/" names)).
  by rewrite bool_decide_eq_false_2.
Qed.

Lemma remote_path_under_cwd_aux cwd names :
  cwd ≠ "" →
  Forall (λ name, listed_name name = true) names → names ≠ [] →
  contains cwd ("/" +:+ join_with "/" names) = false →
  contains "\" ("/" +:+ join_with "/" names) = false →
  remote_path cwd (cwd +:+ "/" +:+ join_with "/" names)
  = "/" +:+ join_with "/" names.
Proof.
  intros Hcwd Hnames Hne Hagain Hback. unfold remote_path.
  rewrite replace_front by done. rewrite (replace_absent cwd) by done.
  rewrite normpath_listed by done. by apply replace_absent.
Qed.

(** X20.  The remote path of an upload.  For a file under the working
    directory, along listed names, the remote path is the rest of the path
    behind the working directory, provided that the path of the working
    directory does not occur again in that rest (every occurrence is taken
    out, not only the one in front) and that the rest holds no backslash. *)
Theorem remote_path_under_cwd cwd names :
  cwd ≠ "" →
  Forall (λ name, listed_name name = true) names → names ≠ [] →
  contains cwd ("/" +:+ join_with "/" names) = false →
  contains "\" ("/" +:+ join_with "/" names) = false →
  remote_path cwd (cwd +:+ "/" +:+ join_with "/" names)
  = "/" +:+ join_with "/" names.
Proof.
  intros Hcwd Hnames Hne Hagain Hback. unfold remote_path.
  rewrite replace_front by done. rewrite (replace_absent cwd) by done.
  rewrite normpath_listed by done. by apply replace_absent.
Qed.

Lemma remote_path_under_cwd_witness :
  contains "/site" ("/" +:+ join_with "/" ["src"; "m.py"]) = false
  ∧ remote_path "/site" ("/site" +:+ "/" +:+ join_with "/" ["src"; "m.py"])
    = "/src/m.py".
Proof.
  split; [reflexivity|].
  apply (remote_path_under_cwd "/site" ["src"; "m.py"]);
    [discriminate|by repeat constructor|discriminate|reflexivity|reflexivity].
Defined.

Lemma slashed_join_with names :
  names ≠ [] → slashed names = "/" +:+ join_with "/" names.
Proof.
  induction names as [|name names IH]; [done|]. intros _.
  destruct names as [|name' names].
  { cbn [slashed join_with]. by rewrite app_empty_r. }
  change (slashed (name :: name' :: names))
    with ("/" +:+ name +:+ slashed (name' :: names)).
  by rewrite IH.
Qed.

Lemma slashed_app names name :
  slashed (names ++ [name]) = slashed names +:+ "/" +:+ name.
Proof.
  induction names as [|name' names IH].
  { cbn [app slashed]. by rewrite app_empty_r. }
  cbn [app slashed]. rewrite IH. by rewrite !app_assoc_s.
Qed.

Lemma listed_dir_files d file :
  listed_dir d = true → file ∈ files_of d → listed_name file.1 = true.
Proof.
  destruct d as [files dirs]. cbn [listed_dir files_of].
  intros [Hfiles _]%andb_true_iff Hin.
  rewrite forallb_forall in Hfiles. by apply Hfiles, list_elem_of_In.
Qed.

Lemma listed_dir_dirs d entry :
  listed_dir d = true → entry ∈ dirs_of d →
  listed_name entry.1 = true ∧ listed_dir entry.2 = true.
Proof.
  destruct d as [files dirs]. cbn [listed_dir dirs_of].
  intros [_ Hdirs]%andb_true_iff Hin.
  rewrite forallb_forall in Hdirs.
  by apply andb_true_iff, Hdirs, list_elem_of_In.
Qed.

(** The path of an item of the walk: the top, and behind it the names of
    the directories that lead to the item. *)
Lemma os_walk_names top d root sub :
  top ≠ "" → ends_with_slash top = false → listed_dir d = true →
  (root, sub) ∈ os_walk top d →
  ∃ names, Forall (λ name, listed_name name = true) names
           ∧ root = top +:+ slashed names
           ∧ root ≠ "" ∧ ends_with_slash root = false
           ∧ listed_dir sub = true.
Proof.
  revert top. induction d as [files dirs IH] using dir_ind_nested.
  intros top Htop Hend Hlisted [Heq|(entry & Hentry & Hin)]%elem_of_os_walk.
  { injection Heq as -> ->. exists []. cbn [slashed].
    by rewrite app_empty_r. }
  rewrite Forall_forall in IH.
  destruct (listed_dir_dirs _ _ Hlisted Hentry) as [Hname Hsub].
  pose proof Hname as (Hne & Hsep & _)%listed_name_inv.
  assert (join top entry.1 = top +:+ "/" +:+ entry.1) as Hjoin.
  { rewrite join_entry, dirpart_open by done. by rewrite app_assoc_s. }
  destruct (IH entry Hentry (join top entry.1)) as (names & Hnames & -> & Hrest);
    [rewrite Hjoin; by apply app_not_empty, app_not_empty
    |rewrite Hjoin, !ends_with_slash_app by (try apply app_not_empty; done);
     by apply sep_free_ends_with_slash
    |done|done|].
  exists (entry.1 :: names). split; [by constructor|].
  split; [|done]. rewrite Hjoin. cbn [slashed]. by rewrite !app_assoc_s.
Qed.

(** X21.  From the scan to the upload.  With the working directory as the
    directory of the manager, as [main] has it, every path that a scan
    returns is the directory followed by a rest, and its remote path is
    that rest, provided that the path of the directory does not occur again
    in the rest and that the rest holds no backslash. *)
Theorem remote_path_of_returned_file fs self cfg w l out :
  listed_dir fs = true →
  directory self ≠ "" → ends_with_slash (directory self) = false →
  scan_files fs self cfg w = Ok (l, out) →
  ∀ path, path ∈ l →
    ∃ rest, path = directory self +:+ rest
            ∧ (contains (directory self) rest = false →
               contains "\" rest = false →
               remote_path (directory self) path = rest).
Proof.
  intros Hlisted Htop Hend Hscan path Hin.
  apply (scan_files_returned _ _ _ _ _ _ Hscan) in Hin
    as (root & name & t & (d & Hitem & Hfile) & _ & _ & ->).
  destruct (os_walk_names _ _ _ _ Htop Hend Hlisted Hitem)
    as (names & Hnames & -> & Hroot & Hrootend & Hd).
  pose proof (listed_dir_files _ _ Hd Hfile) as Hname. cbn [fst] in Hname.
  pose proof Hname as (_ & Hsep & _)%listed_name_inv.
  assert (join (directory self +:+ slashed names) name
          = directory self +:+ slashed (names ++ [name])) as ->.
  { rewrite join_entry, dirpart_open, slashed_app by done.
    by rewrite !app_assoc_s. }
  exists (slashed (names ++ [name])). split; [done|].
  rewrite slashed_join_with by (by destruct names).
  intros Hagain Hback.
  apply remote_path_under_cwd_aux; try done; [|by destruct names].
  apply Forall_app. split; [done|by constructor].
Qed.

Lemma remote_path_of_returned_file_witness :
  listed_dir site = true
  ∧ ∃ rest, "/site/src/m.py" = directory site_manager +:+ rest
            ∧ (contains (directory site_manager) rest = false →
               contains "\" rest = false →
               remote_path (directory site_manager) "/site/src/m.py" = rest).
Proof.
  split; [reflexivity|].
  apply (remote_path_of_returned_file site site_manager site_config no_world
           site_list _ eq_refl ltac:(discriminate) eq_refl site_scan).
  unfold site_list. by repeat constructor.
Defined.

End remote_path.
